(** * The falling-drop game of [src/game.js]: model and verified properties

    The game keeps its whole state in module-level variables and changes it
    from three entry points: [reset] (restart button, first load), [flap]
    (pointer press, space bar) and [loop] (one animation frame, which calls
    [update]).  The development embeds these functions as state-passing
    functions on a record of the module variables.

    Modelling choices.
    - In the model of the game a JS number is an exact rational ([Q]) and
      the arithmetic is exact; comparisons are the boolean comparisons of
      [Q].  Module [F64] gives [circleRectColliding] as the code computes
      it, over binary64 doubles, each operation rounding.
    - [Math.random()] and [performance.now()] are inputs: every call site
      receives the value read there as an argument.
    - The DOM nodes written by the code are three strings ([Dom]).
    - An obstacle is a JS object; its identity is kept in the field [oid],
      the number of obstacles allocated before it.  No code path reads it.
    - Dereferencing [drop] while it is [null] throws; functions that do so
      return [option State], [None] being the thrown TypeError. *)

From Stdlib Require Import ZArith QArith Qround Qminmax Qpower Lqa Lia String DecimalString.
From Stdlib Require Floats.
From stdpp Require Import base list.

Open Scope Q_scope.

(** ** JS numbers and [Math] *)

Module Num.

Definition lt (a b : Q) : bool := negb (Qle_bool b a).
Definition le (a b : Q) : bool := Qle_bool a b.

Definition Math_max (a b : Q) : Q := if Qle_bool a b then b else a.
Definition Math_min (a b : Q) : Q := if Qle_bool a b then a else b.
Definition Math_floor (a : Q) : Q := inject_Z (Qfloor a).

(** [`${n}`] for an integer [n]. *)
Definition to_string (n : Z) : string := NilZero.string_of_int (Z.to_int n).

End Num.

(** ** Data model *)

Module Drop.
Record t : Type := Build {
  x : Q;
  y : Q;
  r : Q;
  vy : Q;
  color : string
}.

Definition set_vy (v : Q) (d : t) : t :=
  {| x := x d; y := y d; r := r d; vy := v; color := color d |}.
Definition set_y (v : Q) (d : t) : t :=
  {| x := x d; y := v; r := r d; vy := vy d; color := color d |}.
End Drop.

Module Obstacle.
Record t : Type := Build {
  oid : nat;
  x : Q;
  w : Q;
  gapY : Q;
  gapH : Q;
  scored : bool;
  type : string
}.

Definition set_x (v : Q) (o : t) : t :=
  {| oid := oid o; x := v; w := w o; gapY := gapY o; gapH := gapH o;
     scored := scored o; type := type o |}.
Definition set_scored (b : bool) (o : t) : t :=
  {| oid := oid o; x := x o; w := w o; gapY := gapY o; gapH := gapH o;
     scored := b; type := type o |}.
End Obstacle.

(** The text and style of the DOM nodes the game writes to. *)
Record Dom : Type := {
  scoreUI : string;        (* scoreUI.textContent *)
  overlay : string;        (* overlay.style.display *)
  gameoverText : string    (* gameoverText.textContent *)
}.

Record State : Type := {
  drop : option Drop.t;
  obstacles : list Obstacle.t;
  lastSpawn : Q;
  spawnInterval : Q;
  speed : Q;
  running : bool;
  lastTime : Q;
  score : Z;
  dom : Dom;
  nextId : nat
}.

(** The three values [Math.random()] returns during one spawn event, in
    call order. *)
Record Draws : Type := {
  uGap : Q;
  uSpeed : Q;
  uInterval : Q
}.

Definition unit_draw (u : Q) : Prop := 0 <= u /\ u < 1.

Definition fair (u : Draws) : Prop :=
  unit_draw (uGap u) /\ unit_draw (uSpeed u) /\ unit_draw (uInterval u).

(** ** Constants and pure helpers *)

Definition gravity : Q := 0.45.
Definition lift : Q := -8.8.

Definition scoreLine (n : Z) : string :=
  ("Water delivered: " ++ Num.to_string n)%string.

Definition gameoverLine (n : Z) : string :=
  ("You delivered water to " ++ Num.to_string n
     ++ " people. Real clean water lasts a lifetime.")%string.

(** [circleRectColliding] in exact arithmetic; [F64.circleRectColliding]
    is the same function over doubles. *)
Definition circleRectColliding (cx cy r rx ry rw rh : Q) : bool :=
  let closestX := Num.Math_max rx (Num.Math_min cx (rx + rw)) in
  let closestY := Num.Math_max ry (Num.Math_min cy (ry + rh)) in
  let dx := cx - closestX in
  let dy := cy - closestY in
  Num.le (dx * dx + dy * dy) (r * r).




(** ** [circleRectColliding] over doubles

    A JS number is a binary64 double, and so is a primitive float of
    Rocq: [+], [-], [*] round to nearest, ties to even, and [<?], [<=?]
    are false on NaN.  [Math.max] and [Math.min] return NaN if an argument
    is NaN and tell [-0] from [+0]. *)

Module F64.

Import Floats.

Definition Math_max (a b : float) : float :=
  if (is_nan a || is_nan b)%bool then nan
  else if (a <? b)%float then b
  else if (b <? a)%float then a
  else if get_sign a then b else a.

Definition Math_min (a b : float) : float :=
  if (is_nan a || is_nan b)%bool then nan
  else if (a <? b)%float then a
  else if (b <? a)%float then b
  else if get_sign a then a else b.

Definition circleRectColliding (cx cy r rx ry rw rh : float) : bool :=
  let closestX := Math_max rx (Math_min cx (rx + rw)) in
  let closestY := Math_max ry (Math_min cy (ry + rh)) in
  let dx := (cx - closestX)%float in
  let dy := (cy - closestY)%float in
  (dx * dx + dy * dy <=? r * r)%float.

(** The rational a finite double stands for: [m * 2^e], signed. *)
Definition mag (m : positive) (e : Z) : Q := inject_Z (Zpos m) * 2 ^ e.

Definition SFvalue (x : spec_float) : option Q :=
  match x with
  | S754_zero _ => Some 0
  | S754_finite s m e => Some (if s then - mag m e else mag m e)
  | _ => None
  end.

Definition value (f : float) : option Q := SFvalue (Prim2SF f).

(** [f] is finite and stands for [q]. *)
Definition val (f : float) (q : Q) : Prop :=
  match value f with
  | Some q0 => q0 == q
  | None => False
  end.

(** The operation [op] does not round on [a] and [b]: its result stands
    for the exact result [qop] on what [a] and [b] stand for. *)
Definition exact (op : float -> float -> float) (qop : Q -> Q -> Q)
  (a b : float) : Prop :=
  forall qa qb, val a qa -> val b qb -> val (op a b) (qop qa qb).


End F64.

(** ** The move pass over the obstacle array

    [for (let i = obstacles.length - 1; i >= 0; i--)]: the pass carries the
    array, the score and the score line; [moveObstacles n] runs the
    iterations for [i = n-1, ..., 0]. *)

Record Pass : Type := {
  p_obstacles : list Obstacle.t;
  p_score : Z;
  p_scoreUI : string
}.

Definition moveBody (speed edge : Q) (i : nat) (p : Pass) : Pass :=
  match p_obstacles p !! i with
  | None => p
  | Some ob =>
      let ob1 := Obstacle.set_x (Obstacle.x ob - speed) ob in
      let hit := negb (Obstacle.scored ob1)
                 && Num.lt (Obstacle.x ob1 + Obstacle.w ob1) edge in
      let ob2 := if hit then Obstacle.set_scored true ob1 else ob1 in
      let sc := if hit then (p_score p + 1)%Z else p_score p in
      let ui := if hit then scoreLine sc else p_scoreUI p in
      let obs := <[i := ob2]> (p_obstacles p) in
      let obs := if Num.lt (Obstacle.x ob2 + Obstacle.w ob2) (-50)
                 then delete i obs else obs in
      {| p_obstacles := obs; p_score := sc; p_scoreUI := ui |}
  end.

Fixpoint moveObstacles (speed edge : Q) (n : nat) (p : Pass) : Pass :=
  match n with
  | O => p
  | S i => moveObstacles speed edge i (moveBody speed edge i p)
  end.

(** What one obstacle goes through in the pass, and whether it stays. *)
Definition passes (edge : Q) (o : Obstacle.t) : bool :=
  negb (Obstacle.scored o) && Num.lt (Obstacle.x o + Obstacle.w o) edge.

Definition moved (speed edge : Q) (o : Obstacle.t) : Obstacle.t :=
  let o1 := Obstacle.set_x (Obstacle.x o - speed) o in
  if passes edge o1 then Obstacle.set_scored true o1 else o1.

Definition offscreen (o : Obstacle.t) : bool :=
  Num.lt (Obstacle.x o + Obstacle.w o) (-50).

Definition newlyScored (speed edge : Q) (o : Obstacle.t) : bool :=
  passes edge (Obstacle.set_x (Obstacle.x o - speed) o).

(** The pass as a whole: the obstacles it leaves, in order, and how many
    it scores. *)
Definition survivors (speed edge : Q) (l : list Obstacle.t) : list Obstacle.t :=
  List.filter (fun o => negb (offscreen o)) (map (moved speed edge) l).

Definition scoredNow (speed edge : Q) (l : list Obstacle.t) : Z :=
  Z.of_nat (length (List.filter (newlyScored speed edge) l)).

Definition oids (l : list Obstacle.t) : list nat := map Obstacle.oid l.

(** ** The game, for a canvas of width [W] and height [H] *)

Section Game.

Variables W H : Z.

Definition initialDrop : Drop.t :=
  {| Drop.x := 110; Drop.y := inject_Z H / 2; Drop.r := 14; Drop.vy := 0;
     Drop.color := "#3fe6ff" |}.

(** The module variables before the first call of [reset]; [page] is what
    the document holds in the three nodes. *)
Definition initial (page : Dom) : State :=
  {| drop := None; obstacles := []; lastSpawn := 0; spawnInterval := 1400;
     speed := 2.2; running := false; lastTime := 0; score := 0%Z;
     dom := page; nextId := 0 |}.

(** [t1] and [t2] are the two readings of [performance.now()]. *)
Definition reset (t1 t2 : Q) (st : State) : State :=
  {| drop := Some initialDrop;
     obstacles := [];
     lastSpawn := t1;
     spawnInterval := spawnInterval st;
     speed := 2.2;
     running := true;
     lastTime := t2;
     score := 0%Z;
     dom := {| scoreUI := scoreLine 0; overlay := "none";
               gameoverText := gameoverText (dom st) |};
     nextId := nextId st |}.

Definition gapHeight : Q := 140.
Definition minGapY : Q := 90.
Definition maxGapY : Q := inject_Z H - 90 - gapHeight.

Definition pickGapY (u : Q) : Q :=
  Num.Math_floor (u * (maxGapY - minGapY + 1)) + minGapY.

Definition newObstacle (id : nat) (u : Q) : Obstacle.t :=
  {| Obstacle.oid := id;
     Obstacle.x := inject_Z W + 10;
     Obstacle.w := 84;
     Obstacle.gapY := pickGapY u;
     Obstacle.gapH := gapHeight;
     Obstacle.scored := false;
     Obstacle.type := "pipe" |}.

Definition spawnObstacle (now u : Q) (st : State) : State :=
  {| drop := drop st;
     obstacles := obstacles st ++ [newObstacle (nextId st) u];
     lastSpawn := lastSpawn st;
     spawnInterval := spawnInterval st;
     speed := speed st;
     running := running st;
     lastTime := lastTime st;
     score := score st;
     dom := dom st;
     nextId := S (nextId st) |}.

Definition endGame (st : State) : State :=
  {| drop := drop st;
     obstacles := obstacles st;
     lastSpawn := lastSpawn st;
     spawnInterval := spawnInterval st;
     speed := speed st;
     running := false;
     lastTime := lastTime st;
     score := score st;
     dom := {| scoreUI := scoreUI (dom st); overlay := "flex";
               gameoverText := gameoverLine (score st) |};
     nextId := nextId st |}.

(** [update], statement by statement. *)

Definition integrate (d : Drop.t) : Drop.t :=
  let d1 := Drop.set_vy (Drop.vy d + gravity) d in
  Drop.set_y (Drop.y d1 + Drop.vy d1) d1.

Definition gateOpen (now : Q) (st : State) : bool :=
  Num.lt (spawnInterval st) (now - lastSpawn st).

Definition drift (u : Draws) (st : State) : State :=
  let sp := if Num.lt (uSpeed u) 0.12 then speed st + 0.05 else speed st in
  let si := if Num.lt (uInterval u) 0.07
            then Num.Math_max 900 (spawnInterval st - 20)
            else spawnInterval st in
  {| drop := drop st; obstacles := obstacles st; lastSpawn := lastSpawn st;
     spawnInterval := si; speed := sp; running := running st;
     lastTime := lastTime st; score := score st; dom := dom st;
     nextId := nextId st |}.

Definition set_lastSpawn (now : Q) (st : State) : State :=
  {| drop := drop st; obstacles := obstacles st; lastSpawn := now;
     spawnInterval := spawnInterval st; speed := speed st;
     running := running st; lastTime := lastTime st; score := score st;
     dom := dom st; nextId := nextId st |}.

Definition spawnStep (now : Q) (u : Draws) (st : State) : State :=
  if gateOpen now st
  then drift u (set_lastSpawn now (spawnObstacle now (uGap u) st))
  else st.

Definition moveStep (d : Drop.t) (st : State) : State :=
  let p := moveObstacles (speed st) (Drop.x d - Drop.r d)
             (length (obstacles st))
             {| p_obstacles := obstacles st; p_score := score st;
                p_scoreUI := scoreUI (dom st) |} in
  {| drop := drop st; obstacles := p_obstacles p; lastSpawn := lastSpawn st;
     spawnInterval := spawnInterval st; speed := speed st;
     running := running st; lastTime := lastTime st; score := p_score p;
     dom := {| scoreUI := p_scoreUI p; overlay := overlay (dom st);
               gameoverText := gameoverText (dom st) |};
     nextId := nextId st |}.

Definition hitsPipe (d : Drop.t) (ob : Obstacle.t) : bool :=
  circleRectColliding (Drop.x d) (Drop.y d) (Drop.r d)
    (Obstacle.x ob) 0 (Obstacle.w ob) (Obstacle.gapY ob)
  || circleRectColliding (Drop.x d) (Drop.y d) (Drop.r d)
       (Obstacle.x ob) (Obstacle.gapY ob + Obstacle.gapH ob) (Obstacle.w ob)
       (inject_Z H - (Obstacle.gapY ob + Obstacle.gapH ob)).

Definition outOfBounds (d : Drop.t) : bool :=
  Num.lt (inject_Z H) (Drop.y d - Drop.r d)
  || Num.lt (Drop.y d + Drop.r d) 0.

Definition set_drop (d : Drop.t) (st : State) : State :=
  {| drop := Some d; obstacles := obstacles st; lastSpawn := lastSpawn st;
     spawnInterval := spawnInterval st; speed := speed st;
     running := running st; lastTime := lastTime st; score := score st;
     dom := dom st; nextId := nextId st |}.

Definition update (dt now : Q) (u : Draws) (st : State) : option State :=
  if negb (running st) then Some st
  else
    match drop st with
    | None => None
    | Some d0 =>
        let d := integrate d0 in
        let st1 := set_drop d st in
        let st2 := spawnStep now u st1 in
        let st3 := moveStep d st2 in
        if existsb (hitsPipe d) (obstacles st3) then Some (endGame st3)
        else if outOfBounds d then Some (endGame st3)
        else Some st3
    end.

Definition set_lastTime (now : Q) (st : State) : State :=
  {| drop := drop st; obstacles := obstacles st; lastSpawn := lastSpawn st;
     spawnInterval := spawnInterval st; speed := speed st;
     running := running st; lastTime := now; score := score st;
     dom := dom st; nextId := nextId st |}.

(** [loop(now)] without its call of [draw]: [draw] assigns no variable of
    the game, but it throws while [drop] is [null], and [lastTime] is then
    not assigned.  [frame], below, is [loop] in full. *)
Definition loop (now : Q) (u : Draws) (st : State) : option State :=
  let dt := (now - lastTime st) / 1000 in
  match update dt now u st with
  | None => None
  | Some st' => Some (set_lastTime now st')
  end.

Definition flap (t1 t2 : Q) (st : State) : option State :=
  if negb (running st) then Some (reset t1 t2 st)
  else
    match drop st with
    | None => None
    | Some d => Some (set_drop (Drop.set_vy lift d) st)
    end.

(** ** Event sequences *)

Inductive Event : Type :=
| Restart (t1 t2 : Q)           (* restart button, or the first load *)
| Activate (t1 t2 : Q)          (* pointer press or space bar *)
| Frame (now : Q) (u : Draws).  (* one animation frame *)

Definition admissible (e : Event) : Prop :=
  match e with
  | Frame _ u => fair u
  | _ => True
  end.

Definition exec (e : Event) (st : State) : option State :=
  match e with
  | Restart t1 t2 => Some (reset t1 t2 st)
  | Activate t1 t2 => flap t1 t2 st
  | Frame now u => loop now u st
  end.

Fixpoint run (es : list Event) (st : State) : option State :=
  match es with
  | [] => Some st
  | e :: es' =>
      match exec e st with
      | None => None
      | Some st' => run es' st'
      end
  end.

Inductive reachable : State -> Prop :=
| reach_initial page : reachable (initial page)
| reach_step st e st' :
    reachable st -> admissible e -> exec e st = Some st' -> reachable st'.

End Game.

(** ** State invariants and sample inputs *)

Section Invariants.

Variables W H : Z.

(** The state [update] reaches before it looks for collisions. *)
Definition afterMove (now : Q) (u : Draws) (d0 : Drop.t) (st : State) : State :=
  moveStep (integrate d0)
    (spawnStep W H now u (set_drop (integrate d0) st)).

(** The array the move pass starts from. *)
Definition spawned (now : Q) (u : Draws) (st : State) : list Obstacle.t :=
  if gateOpen now st
  then obstacles st ++ [newObstacle W H (nextId st) (uGap u)]
  else obstacles st.

Definition gapOK (o : Obstacle.t) : Prop :=
  (exists z : Z, Obstacle.gapY o == inject_Z z)
  /\ Obstacle.gapH o = 140
  /\ 90 <= Obstacle.gapY o
  /\ Obstacle.gapY o + Obstacle.gapH o <= inject_Z H - 90.

Definition obstacleOK (bound : nat) (o : Obstacle.t) : Prop :=
  (Obstacle.oid o < bound)%nat
  /\ Obstacle.w o = 84
  /\ (Obstacle.scored o = true <-> Obstacle.x o + Obstacle.w o < 110 - 14).

(** Before its move an obstacle may be unscored although its trailing
    edge has passed: a new one is, on a canvas less than 2 wide. *)
Definition obstaclePre (bound : nat) (o : Obstacle.t) : Prop :=
  (Obstacle.oid o < bound)%nat
  /\ Obstacle.w o = 84
  /\ (Obstacle.scored o = true -> Obstacle.x o + Obstacle.w o < 110 - 14).

Definition wellFormed (st : State) : Prop :=
  (running st = true -> exists d, drop st = Some d)
  /\ (forall d, drop st = Some d -> Drop.x d = 110 /\ Drop.r d = 14)
  /\ 900 <= spawnInterval st
  /\ 2.2 <= speed st
  /\ NoDup (oids (obstacles st))
  /\ Forall (obstacleOK (nextId st)) (obstacles st).

End Invariants.

Definition blankPage : Dom :=
  {| scoreUI := EmptyString; overlay := "none"; gameoverText := EmptyString |}.

Definition midDraws : Draws := {| uGap := 0.5; uSpeed := 0.5; uInterval := 0.5 |}.

Definition lowDraws : Draws := {| uGap := 0.5; uSpeed := 0.5; uInterval := 0.01 |}.

(** Draws that put the gap low (at 407 on a canvas 640 high) and shorten
    the spawn interval. *)
Definition lowGapDraws : Draws :=
  {| uGap := 0.99; uSpeed := 0.5; uInterval := 0.01 |}.

(** A run in progress on a 480 x 640 canvas, with the given obstacles and
    allocation counter. *)
Definition midRun (obs : list Obstacle.t) (n : nat) : State :=
  {| drop := Some (initialDrop 640); obstacles := obs; lastSpawn := 0;
     spawnInterval := 1400; speed := 2.2; running := true; lastTime := 0;
     score := 0%Z;
     dom := {| scoreUI := scoreLine 0; overlay := "none";
               gameoverText := EmptyString |};
     nextId := n |}.

Definition pipeAt (id : nat) (x : Q) (scored : bool) : Obstacle.t :=
  {| Obstacle.oid := id; Obstacle.x := x; Obstacle.w := 84;
     Obstacle.gapY := 250; Obstacle.gapH := 140; Obstacle.scored := scored;
     Obstacle.type := "pipe" |}.

(** [n] frames, 16 ms apart, the first at time [t0 + 16]. *)
Definition frames16 (t0 : Z) (n : nat) : list Event :=
  map (fun i => Frame (inject_Z (t0 + 16 * Z.of_nat i)) midDraws) (seq 1 n).

(** ** Rendering: the calls [draw] makes on the 2D context *)

(** [Math.PI], the double nearest to pi: 884279719003555 / 2^48. *)
Definition Math_PI : Q := 884279719003555 # 281474976710656.

Inductive Style : Type :=
| Color (css : string)
| LinearGradient (x0 y0 x1 y1 : Q) (stops : list (Q * string)).

Inductive Cmd : Type :=
| ClearRect (x y w h : Q)
| FillStyle (s : Style)
| FillRect (x y w h : Q)
| BeginPath
| Ellipse (x y radiusX radiusY rotation startAngle endAngle : Q)
| Arc (x y radius startAngle endAngle : Q)
| Fill.

(** What a call of [draw] did: the context calls it made, and whether it
    returned or threw (at [drop.color], [drop] being [null]). *)
Inductive Painting : Type :=
| Painted (cs : list Cmd)
| Thrown (cs : list Cmd).

Section Draw.

Variables W H : Z.

Definition drawBackdrop : list Cmd :=
  [ ClearRect 0 0 (inject_Z W) (inject_Z H);
    FillStyle (LinearGradient 0 0 0 (inject_Z H)
                 [(0, "#a7eafe"%string); (1, "#6ec6ff"%string)]);
    FillRect 0 0 (inject_Z W) (inject_Z H);
    FillStyle (Color "#2b7a78");
    FillRect 0 (inject_Z H - 26) (inject_Z W) 26 ].

(** The two rectangles of a pipe pair, as [draw] fills them. *)
Definition pipeRects (ob : Obstacle.t) : list Cmd :=
  [ FillRect (Obstacle.x ob) 0 (Obstacle.w ob) (Obstacle.gapY ob);
    FillRect (Obstacle.x ob) (Obstacle.gapY ob + Obstacle.gapH ob)
      (Obstacle.w ob) (inject_Z H - (Obstacle.gapY ob + Obstacle.gapH ob)) ].

(** [u] is the value of [Math.random()] in this iteration. *)
Definition drawObstacle (u : Q) (ob : Obstacle.t) : list Cmd :=
  FillStyle (Color "#6b4226") :: pipeRects ob
  ++ (if Num.lt u 0.02
      then [ FillStyle (Color "rgba(0,0,0,0.12)");
             BeginPath;
             Ellipse (Obstacle.x ob + Obstacle.w ob * 0.6)
               (Num.Math_min (Obstacle.gapY ob) 60) 10 6 0 0 (Math_PI * 2);
             Fill ]
      else []).

(** [rnd i] is the value of the [i]-th call of [Math.random()] in this
    call of [draw]. *)
Fixpoint drawObstacles (rnd : nat -> Q) (i : nat) (l : list Obstacle.t)
  : list Cmd :=
  match l with
  | [] => []
  | ob :: l' => drawObstacle (rnd i) ob ++ drawObstacles rnd (S i) l'
  end.

Definition drawDrop (d : Drop.t) : list Cmd :=
  [ BeginPath;
    FillStyle (Color (Drop.color d));
    Arc (Drop.x d) (Drop.y d) (Drop.r d) 0 (Math_PI * 2);
    Fill;
    BeginPath;
    FillStyle (Color "rgba(255,255,255,0.4)");
    Arc (Drop.x d - 4) (Drop.y d - 6) 5 0 (Math_PI * 2);
    Fill ].

Definition draw (rnd : nat -> Q) (st : State) : Painting :=
  let cs := drawBackdrop ++ drawObstacles rnd 0 (obstacles st) in
  match drop st with
  | None => Thrown (cs ++ [BeginPath])
  | Some d => Painted (cs ++ drawDrop d)
  end.

(** ** One animation frame, with rendering and rescheduling

    [loop(now)] in full: [f_again] says whether it called
    [requestAnimationFrame(loop)]; when [update] or [draw] throws, the
    statements after it are not run. *)
Record FrameOutcome : Type := {
  f_state : State;
  f_painted : list Cmd;
  f_thrown : bool;
  f_again : bool
}.

Definition frame (now : Q) (u : Draws) (rnd : nat -> Q) (st : State)
  : FrameOutcome :=
  let dt := (now - lastTime st) / 1000 in
  match update W H dt now u st with
  | None =>
      {| f_state := st; f_painted := []; f_thrown := true; f_again := false |}
  | Some st1 =>
      match draw rnd st1 with
      | Thrown cs =>
          {| f_state := st1; f_painted := cs; f_thrown := true;
             f_again := false |}
      | Painted cs =>
          {| f_state := set_lastTime now st1; f_painted := cs;
             f_thrown := false; f_again := running st1 |}
      end
  end.

(** ** The page: handlers and the animation-frame queue

    All queued callbacks are [loop], so the queue is its length
    [pending]; [faults] counts the exceptions that escaped a handler. *)
Record Sys : Type := {
  game : State;
  pending : nat;
  faults : nat
}.

Inductive SysEvent : Type :=
| PointerDown (t1 t2 : Q)
| KeyDown (code : string) (t1 t2 : Q)
| RestartClick (t1 t2 : Q)
| AnimationFrame (now : Q) (u : Draws) (rnd : nat -> Q).

(** The script's last two statements: [reset(); requestAnimationFrame(loop)]. *)
Definition boot (page : Dom) (t1 t2 : Q) : Sys :=
  {| game := reset H t1 t2 (initial page); pending := 1; faults := 0 |}.

Definition restartSys (t1 t2 : Q) (s : Sys) : Sys :=
  {| game := reset H t1 t2 (game s); pending := S (pending s);
     faults := faults s |}.

(** [flap] with its call of [requestAnimationFrame]. *)
Definition flapSys (t1 t2 : Q) (s : Sys) : Sys :=
  if negb (running (game s)) then restartSys t1 t2 s
  else
    match flap H t1 t2 (game s) with
    | Some g => {| game := g; pending := pending s; faults := faults s |}
    | None => {| game := game s; pending := pending s;
                 faults := S (faults s) |}
    end.

(** [None]: the event cannot happen (no callback is queued). *)
Definition fire (e : SysEvent) (s : Sys) : option Sys :=
  match e with
  | PointerDown t1 t2 => Some (flapSys t1 t2 s)
  | KeyDown code t1 t2 =>
      if String.eqb code "Space" then Some (flapSys t1 t2 s) else Some s
  | RestartClick t1 t2 => Some (restartSys t1 t2 s)
  | AnimationFrame now u rnd =>
      match pending s with
      | O => None
      | S p =>
          let out := frame now u rnd (game s) in
          Some {| game := f_state out;
                  pending := if f_again out then S p else p;
                  faults := if f_thrown out then S (faults s) else faults s |}
      end
  end.

Fixpoint fireAll (es : list SysEvent) (s : Sys) : option Sys :=
  match es with
  | [] => Some s
  | e :: es' =>
      match fire e s with
      | None => None
      | Some s' => fireAll es' s'
      end
  end.

Definition isRestartClick (e : SysEvent) : bool :=
  match e with RestartClick _ _ => true | _ => false end.

(** What the page can come to after loading. *)
Inductive live : Sys -> Prop :=
| live_boot page t1 t2 : live (boot page t1 t2)
| live_step s e s' : live s -> fire e s = Some s' -> live s'.

(** The same, the restart button being pressed only between runs. *)
Inductive tidy : Sys -> Prop :=
| tidy_boot page t1 t2 : tidy (boot page t1 t2)
| tidy_step s e s' :
    tidy s ->
    (isRestartClick e = true -> running (game s) = false) ->
    fire e s = Some s' -> tidy s'.

End Draw.

(** ** Further notions used in the statements *)

(** [n] frames of free fall. *)
Definition fall (n : nat) (d : Drop.t) : Drop.t := Nat.iter n integrate d.

Definition isFrame (e : Event) : bool :=
  match e with Frame _ _ => true | _ => false end.

(** The event calls [reset] in this state: the restart button always
    does, the activate action between runs. *)
Definition resets (e : Event) (st : State) : bool :=
  match e with
  | Restart _ _ => true
  | Activate _ _ => negb (running st)
  | Frame _ _ => false
  end.

(** None of the events, run from [st] on, calls [reset]. *)
Fixpoint resetFree (W H : Z) (es : list Event) (st : State) : Prop :=
  match es with
  | [] => True
  | e :: es' =>
      resets e st = false
      /\ match exec W H e st with
         | Some st' => resetFree W H es' st'
         | None => True
         end
  end.


Definition scoredCount (l : list Obstacle.t) : Z :=
  Z.of_nat (length (List.filter Obstacle.scored l)).



(** What the page shows agrees with the state. *)
Definition displayOK (st : State) : Prop :=
  scoreUI (dom st) = scoreLine (score st)
  /\ (if running st
      then overlay (dom st) = "none"%string
      else overlay (dom st) = "flex"%string
           /\ gameoverText (dom st) = gameoverLine (score st)).

(** ** Facts about JS numbers *)

Lemma lt_true (a b : Q) : Num.lt a b = true <-> a < b.
Proof.
  unfold Num.lt. rewrite negb_true_iff.
  destruct (Qle_bool b a) eqn:E.
  - apply Qle_bool_iff in E. split; [discriminate | intros L; lra].
  - split; [intros _ | reflexivity].
    destruct (Qlt_le_dec a b) as [L | L]; [exact L |].
    apply Qle_bool_iff in L. congruence.
Qed.


Lemma le_true (a b : Q) : Num.le a b = true <-> a <= b.
Proof. apply Qle_bool_iff. Qed.

Lemma Math_max_cases (a b : Q) :
  (a <= b /\ Num.Math_max a b = b) \/ (b < a /\ Num.Math_max a b = a).
Proof.
  unfold Num.Math_max. destruct (Qle_bool a b) eqn:E.
  - left. apply Qle_bool_iff in E. auto.
  - right. split; [| reflexivity].
    destruct (Qlt_le_dec b a) as [L | L]; [exact L |].
    apply Qle_bool_iff in L. congruence.
Qed.

Lemma Math_min_cases (a b : Q) :
  (a <= b /\ Num.Math_min a b = a) \/ (b < a /\ Num.Math_min a b = b).
Proof.
  unfold Num.Math_min. destruct (Qle_bool a b) eqn:E.
  - left. apply Qle_bool_iff in E. auto.
  - right. split; [| reflexivity].
    destruct (Qlt_le_dec b a) as [L | L]; [exact L |].
    apply Qle_bool_iff in L. congruence.
Qed.

Lemma Math_max_Qmax (a b : Q) : Num.Math_max a b == Qmax a b.
Proof.
  destruct (Math_max_cases a b) as [[L ->] | [L ->]].
  - symmetry. apply Q.max_r. exact L.
  - symmetry. apply Q.max_l. lra.
Qed.




(** ** The move pass is a map followed by a filter *)

Lemma moved_oid sp e o : Obstacle.oid (moved sp e o) = Obstacle.oid o.
Proof. unfold moved. destruct (passes e _); reflexivity. Qed.

Lemma moved_x sp e o : Obstacle.x (moved sp e o) = Obstacle.x o - sp.
Proof. unfold moved. destruct (passes e _); reflexivity. Qed.

Lemma moved_w sp e o : Obstacle.w (moved sp e o) = Obstacle.w o.
Proof. unfold moved. destruct (passes e _); reflexivity. Qed.

Lemma moved_gapY sp e o : Obstacle.gapY (moved sp e o) = Obstacle.gapY o.
Proof. unfold moved. destruct (passes e _); reflexivity. Qed.

Lemma moved_gapH sp e o : Obstacle.gapH (moved sp e o) = Obstacle.gapH o.
Proof. unfold moved. destruct (passes e _); reflexivity. Qed.

Lemma moved_scored sp e o :
  Obstacle.scored (moved sp e o)
  = Obstacle.scored o || Num.lt (Obstacle.x o - sp + Obstacle.w o) e.
Proof.
  unfold moved, passes. simpl.
  destruct (Obstacle.scored o) eqn:S; simpl.
  - exact S.
  - destruct (Num.lt _ e); simpl; [reflexivity | exact S].
Qed.

Lemma moveBody_at sp e (pre suf : list Obstacle.t) o sc ui :
  moveBody sp e (length pre)
    {| p_obstacles := pre ++ o :: suf; p_score := sc; p_scoreUI := ui |}
  = {| p_obstacles :=
         pre ++ (if offscreen (moved sp e o) then suf else moved sp e o :: suf);
       p_score := if newlyScored sp e o then (sc + 1)%Z else sc;
       p_scoreUI := if newlyScored sp e o then scoreLine (sc + 1) else ui |}.
Proof.
  unfold moveBody. simpl p_obstacles.
  rewrite list_lookup_middle by reflexivity.
  fold (passes e (Obstacle.set_x (Obstacle.x o - sp) o)).
  fold (newlyScored sp e o).
  replace (if newlyScored sp e o
           then Obstacle.set_scored true (Obstacle.set_x (Obstacle.x o - sp) o)
           else Obstacle.set_x (Obstacle.x o - sp) o)
    with (moved sp e o) by reflexivity.
  fold (offscreen (moved sp e o)).
  simpl p_score. simpl p_scoreUI.
  rewrite insert_app_r_alt by reflexivity.
  rewrite Nat.sub_diag. simpl insert.
  destruct (offscreen (moved sp e o)).
  - rewrite delete_middle. destruct (newlyScored sp e o); reflexivity.
  - destruct (newlyScored sp e o); reflexivity.
Qed.

Lemma moveObstacles_prefix sp e (pre : list Obstacle.t) :
  forall suf sc ui,
    moveObstacles sp e (length pre)
      {| p_obstacles := pre ++ suf; p_score := sc; p_scoreUI := ui |}
    = {| p_obstacles := survivors sp e pre ++ suf;
         p_score := (sc + scoredNow sp e pre)%Z;
         p_scoreUI := if (scoredNow sp e pre =? 0)%Z then ui
                      else scoreLine (sc + scoredNow sp e pre) |}.
Proof.
  induction pre as [| o pre IH] using rev_ind; intros suf sc ui.
  - simpl. unfold scoredNow. simpl. rewrite Z.add_0_r. reflexivity.
  - rewrite length_app. simpl length. rewrite Nat.add_1_r.
    simpl moveObstacles. rewrite <- app_assoc. simpl app.
    rewrite moveBody_at. rewrite IH.
    unfold survivors, scoredNow.
    rewrite map_app, !List.filter_app, length_app. simpl.
    destruct (offscreen (moved sp e o)); simpl;
      destruct (newlyScored sp e o); simpl;
      rewrite <- ?app_assoc; simpl; rewrite ?app_nil_r;
      f_equal; try lia.
    all: set (k := length (List.filter (newlyScored sp e) pre));
      rewrite ?Nat.add_0_r; try reflexivity.
    all: replace (Z.of_nat (k + 1) =? 0)%Z with false
           by (symmetry; apply Z.eqb_neq; lia);
      destruct (Z.of_nat k =? 0)%Z eqn:K;
      [apply Z.eqb_eq in K; f_equal; lia | f_equal; lia].
Qed.

Lemma moveObstacles_all sp e (l : list Obstacle.t) sc ui :
  moveObstacles sp e (length l)
    {| p_obstacles := l; p_score := sc; p_scoreUI := ui |}
  = {| p_obstacles := survivors sp e l;
       p_score := (sc + scoredNow sp e l)%Z;
       p_scoreUI := if (scoredNow sp e l =? 0)%Z then ui
                    else scoreLine (sc + scoredNow sp e l) |}.
Proof.
  pose proof (moveObstacles_prefix sp e l [] sc ui) as P.
  rewrite !app_nil_r in P. exact P.
Qed.

(** ** Geometry: the clamped point is the nearest point of the rectangle *)










(** ** The collision test as the code computes it, in doubles *)

Module DoubleFacts.
Import Floats.
































End DoubleFacts.

(** ** One call of [update] *)

Section Update.

Variables W H : Z.

Lemma update_idle dt now u st :
  running st = false -> update W H dt now u st = Some st.
Proof. intros R. unfold update. rewrite R. reflexivity. Qed.

Lemma update_running dt now u st d :
  running st = true -> drop st = Some d ->
  update W H dt now u st
  = Some (if existsb (hitsPipe H (integrate d))
               (obstacles (afterMove W H now u d st))
             || outOfBounds H (integrate d)
          then endGame (afterMove W H now u d st)
          else afterMove W H now u d st).
Proof.
  intros R D. unfold update. rewrite R, D. simpl negb. cbv iota zeta.
  fold (afterMove W H now u d st).
  destruct (existsb _ _); simpl; [reflexivity |].
  destruct (outOfBounds _ _); reflexivity.
Qed.

Lemma update_null dt now u st :
  running st = true -> drop st = None -> update W H dt now u st = None.
Proof. intros R D. unfold update. rewrite R, D. reflexivity. Qed.

Lemma afterMove_speed now u d st :
  speed (afterMove W H now u d st)
  = if gateOpen now st && Num.lt (uSpeed u) 0.12
    then speed st + 0.05 else speed st.
Proof.
  unfold afterMove, moveStep, spawnStep. simpl.
  change (gateOpen now (set_drop (integrate d) st)) with (gateOpen now st).
  destruct (gateOpen now st); simpl; [| reflexivity].
  destruct (Num.lt (uSpeed u) 0.12); reflexivity.
Qed.

Lemma afterMove_spawnInterval now u d st :
  spawnInterval (afterMove W H now u d st)
  = if gateOpen now st && Num.lt (uInterval u) 0.07
    then Num.Math_max 900 (spawnInterval st - 20) else spawnInterval st.
Proof.
  unfold afterMove, moveStep, spawnStep. simpl.
  change (gateOpen now (set_drop (integrate d) st)) with (gateOpen now st).
  destruct (gateOpen now st); simpl; [| reflexivity].
  destruct (Num.lt (uInterval u) 0.07); reflexivity.
Qed.

Lemma afterMove_obstacles now u d st :
  obstacles (afterMove W H now u d st)
  = survivors (speed (afterMove W H now u d st)) (Drop.x d - Drop.r d)
      (spawned W H now u st).
Proof.
  unfold afterMove at 1. unfold moveStep. simpl obstacles.
  rewrite moveObstacles_all. simpl p_obstacles.
  unfold afterMove, moveStep, spawnStep, spawned. simpl speed.
  change (gateOpen now (set_drop (integrate d) st)) with (gateOpen now st).
  destruct (gateOpen now st); reflexivity.
Qed.

Lemma afterMove_score now u d st :
  score (afterMove W H now u d st)
  = (score st
     + scoredNow (speed (afterMove W H now u d st)) (Drop.x d - Drop.r d)
         (spawned W H now u st))%Z.
Proof.
  unfold afterMove at 1. unfold moveStep. simpl score.
  rewrite moveObstacles_all. simpl p_score.
  unfold afterMove, moveStep, spawnStep, spawned. simpl speed.
  change (gateOpen now (set_drop (integrate d) st)) with (gateOpen now st).
  destruct (gateOpen now st); reflexivity.
Qed.

Lemma afterMove_frame now u d st :
  drop (afterMove W H now u d st) = Some (integrate d)
  /\ running (afterMove W H now u d st) = running st
  /\ lastTime (afterMove W H now u d st) = lastTime st
  /\ lastSpawn (afterMove W H now u d st)
     = (if gateOpen now st then now else lastSpawn st)
  /\ nextId (afterMove W H now u d st)
     = (if gateOpen now st then S (nextId st) else nextId st).
Proof.
  unfold afterMove, moveStep, spawnStep. simpl.
  change (gateOpen now (set_drop (integrate d) st)) with (gateOpen now st).
  destruct (gateOpen now st); simpl; repeat split; reflexivity.
Qed.

End Update.

(** ** C7: [update] outside a run *)

(** C7. When [running] is false the physics step changes nothing: the
    state it returns is the state it was given, field for field (drop,
    obstacles, score, speed, spawn interval, spawn timer, running flag). *)
Theorem update_not_running_noop :
  forall (W H : Z) (dt now : Q) (u : Draws) (st : State),
    running st = false -> update W H dt now u st = Some st.
Proof. intros W H dt now u st R. apply update_idle. exact R. Qed.

Lemma update_not_running_noop_witness :
  running (initial blankPage) = false
  /\ update 480 640 0.016 16 midDraws (initial blankPage)
     = Some (initial blankPage).
Proof.
  split; [reflexivity |].
  apply (update_not_running_noop 480 640 0.016 16 midDraws (initial blankPage)).
  reflexivity.
Defined.

(** ** C5: the activate action during a run *)

(** C5. During a run, [flap] sets the drop's vertical velocity to -8.8,
    whatever it was, and leaves everything else as it is: the drop's
    position, radius and colour, the score, the obstacles, the speed, the
    spawn interval and timer, the running flag and the page. *)
Theorem flap_running_sets_lift :
  forall (H : Z) (t1 t2 : Q) (st : State) (d : Drop.t),
    running st = true -> drop st = Some d ->
    exists st' d',
      flap H t1 t2 st = Some st'
      /\ drop st' = Some d'
      /\ Drop.vy d' = -8.8
      /\ Drop.x d' = Drop.x d /\ Drop.y d' = Drop.y d
      /\ Drop.r d' = Drop.r d /\ Drop.color d' = Drop.color d
      /\ score st' = score st
      /\ obstacles st' = obstacles st
      /\ speed st' = speed st
      /\ spawnInterval st' = spawnInterval st
      /\ lastSpawn st' = lastSpawn st
      /\ running st' = true
      /\ lastTime st' = lastTime st
      /\ dom st' = dom st
      /\ nextId st' = nextId st.
Proof.
  intros H t1 t2 st d R D.
  exists (set_drop (Drop.set_vy lift d) st), (Drop.set_vy lift d).
  unfold flap. rewrite R, D. simpl. repeat split; try reflexivity.
  exact R.
Qed.

Lemma flap_running_sets_lift_witness :
  exists st' d',
    flap 640 5 5 (reset 640 0 0 (initial blankPage)) = Some st'
    /\ drop st' = Some d' /\ Drop.vy d' = -8.8 /\ Drop.y d' = inject_Z 640 / 2.
Proof.
  destruct (flap_running_sets_lift 640 5 5 (reset 640 0 0 (initial blankPage))
              (initialDrop 640) eq_refl eq_refl)
    as (st' & d' & F & D & V & _ & Y & _).
  exists st', d'. repeat split; assumption.
Defined.

(** ** C1: leaving the canvas *)

(** C1 as the specification words it (the run ends once the lowest point
    [y + r] is past the bottom edge) does not hold: 36 frames into a run
    on a 480 x 640 canvas, the next step puts the drop's lowest point at
    650.35, past the bottom edge 640, and the run goes on. *)
Lemma bottom_edge_crossed_run_continues :
  exists st d st',
    run 480 640 (Restart 0 0 :: frames16 0 36) (initial blankPage) = Some st
    /\ running st = true
    /\ drop st = Some d
    /\ update 480 640 0.016 592 midDraws st = Some st'
    /\ inject_Z 640 < Drop.y (integrate d) + Drop.r (integrate d)
    /\ obstacles st' = []
    /\ running st' = true.
Proof.
  eexists. eexists. eexists.
  split; [vm_compute; reflexivity |].
  split; [reflexivity |].
  split; [reflexivity |].
  split; [vm_compute; reflexivity |].
  split; [reflexivity |].
  split; reflexivity.
Qed.

(** C1 (amended). In a run, the physics step ends the run whenever, after
    that frame's integration, the drop's highest point [y - r] is below the
    bottom edge [H] or its lowest point [y + r] is above the top edge 0,
    that is, once the whole drop has left the canvas. *)
Theorem update_ends_run_outside_canvas :
  forall (W H : Z) (dt now : Q) (u : Draws) (st : State) (d : Drop.t),
    running st = true -> drop st = Some d ->
    inject_Z H < Drop.y (integrate d) - Drop.r (integrate d)
    \/ Drop.y (integrate d) + Drop.r (integrate d) < 0 ->
    exists st',
      update W H dt now u st = Some st'
      /\ drop st' = Some (integrate d)
      /\ running st' = false
      /\ gameoverText (dom st') = gameoverLine (score st').
Proof.
  intros W H dt now u st d R D Out.
  assert (O : outOfBounds H (integrate d) = true).
  { unfold outOfBounds. apply orb_true_iff.
    destruct Out as [B | T]; [left | right]; apply lt_true; assumption. }
  rewrite (update_running W H dt now u st d R D), O, orb_true_r.
  eexists. split; [reflexivity |].
  split; [apply afterMove_frame | split; reflexivity].
Qed.

Lemma update_ends_run_outside_canvas_witness :
  let st := set_drop (Drop.set_y 700 (initialDrop 640))
              (reset 640 0 0 (initial blankPage)) in
  running st = true
  /\ exists st',
       update 480 640 0.016 16 midDraws st = Some st'
       /\ running st' = false
       /\ score st' = 0%Z
       /\ gameoverText (dom st')
          = "You delivered water to 0 people. Real clean water lasts a lifetime."%string.
Proof.
  intros st. split; [reflexivity |].
  destruct (update_ends_run_outside_canvas 480 640 0.016 16 midDraws st
              (Drop.set_y 700 (initialDrop 640)) eq_refl eq_refl)
    as (st' & U & _ & R & G).
  - left. reflexivity.
  - exists st'. split; [exact U |]. split; [exact R |].
    assert (S0 : score st' = 0%Z).
    { vm_compute in U. injection U as <-. reflexivity. }
    split; [exact S0 |]. rewrite G, S0. reflexivity.
Defined.

(** ** C2: the frame in which an obstacle is spawned *)

Lemma survivors_snoc sp e l o :
  survivors sp e (l ++ [o])
  = survivors sp e l
    ++ (if offscreen (moved sp e o) then [] else [moved sp e o]).
Proof.
  unfold survivors. rewrite map_app, List.filter_app. simpl.
  destruct (offscreen (moved sp e o)); reflexivity.
Qed.

(** C2 as the specification words it (the new obstacle still stands at
    its spawn x when the step ends) does not hold: on a 480 x 640 canvas
    the first frame that opens the spawn gate leaves the new obstacle at
    487.8, not at 490. *)
Lemma fresh_obstacle_not_at_spawn_x :
  exists st st' ob,
    st = reset 640 0 0 (initial blankPage)
    /\ gateOpen 1401 st = true
    /\ update 480 640 1.401 1401 midDraws st = Some st'
    /\ obstacles st' = [ob]
    /\ Obstacle.oid ob = nextId st
    /\ Obstacle.x ob == 487.8
    /\ ~ Obstacle.x ob == inject_Z 480 + 10.
Proof.
  eexists. eexists. eexists.
  split; [reflexivity |].
  split; [reflexivity |].
  split; [vm_compute; reflexivity |].
  split; [reflexivity |].
  split; [reflexivity |].
  split; [reflexivity |].
  intros E. vm_compute in E. discriminate E.
Qed.

(** C2 (amended). In every frame in which the spawn gate fires, the move
    pass of that same frame runs over the array with the new obstacle at
    its end, so the new obstacle is moved at once: spawned at [W + 10], it
    stands at [W + 10 - speed] when the step ends ([speed] being the speed
    after that frame's drift), and it is the last element of the array
    unless that move already put it off screen. *)
Theorem fresh_obstacle_moved_in_spawn_frame :
  forall (W H : Z) (dt now : Q) (u : Draws) (st : State) (d : Drop.t),
    running st = true -> drop st = Some d -> gateOpen now st = true ->
    exists st',
      update W H dt now u st = Some st'
      /\ let edge := Drop.x d - Drop.r d in
         let fresh := newObstacle W H (nextId st) (uGap u) in
         let fresh' := moved (speed st') edge fresh in
         Obstacle.x fresh = inject_Z W + 10
         /\ Obstacle.x fresh' = inject_Z W + 10 - speed st'
         /\ obstacles st' = survivors (speed st') edge (obstacles st ++ [fresh])
         /\ (offscreen fresh' = false -> last (obstacles st') = Some fresh').
Proof.
  intros W H dt now u st d R D G.
  rewrite (update_running W H dt now u st d R D).
  set (st3 := afterMove W H now u d st).
  assert (O : obstacles st3
              = survivors (speed st3) (Drop.x d - Drop.r d)
                  (obstacles st ++ [newObstacle W H (nextId st) (uGap u)])).
  { unfold st3. rewrite afterMove_obstacles. unfold spawned. rewrite G.
    reflexivity. }
  exists (if existsb (hitsPipe H (integrate d)) (obstacles st3)
               || outOfBounds H (integrate d)
          then endGame st3 else st3).
  split; [reflexivity |].
  assert (S : speed (if existsb (hitsPipe H (integrate d)) (obstacles st3)
                          || outOfBounds H (integrate d)
                     then endGame st3 else st3) = speed st3)
    by (destruct (_ || _); reflexivity).
  assert (L : obstacles (if existsb (hitsPipe H (integrate d)) (obstacles st3)
                              || outOfBounds H (integrate d)
                         then endGame st3 else st3) = obstacles st3)
    by (destruct (_ || _); reflexivity).
  cbv zeta. rewrite S, L.
  split; [reflexivity |].
  split; [apply moved_x |].
  split; [exact O |].
  intros V. rewrite O, survivors_snoc, V. apply last_snoc.
Qed.

Lemma fresh_obstacle_moved_in_spawn_frame_witness :
  let st := reset 640 0 0 (initial blankPage) in
  gateOpen 1401 st = true
  /\ exists st',
       update 480 640 1.401 1401 midDraws st = Some st'
       /\ Obstacle.x (moved (speed st') (110 - 14)
                        (newObstacle 480 640 (nextId st) 0.5))
          = inject_Z 480 + 10 - speed st'.
Proof.
  intros st. split; [reflexivity |].
  destruct (fresh_obstacle_moved_in_spawn_frame 480 640 1.401 1401 midDraws st
              (initialDrop 640) eq_refl eq_refl eq_refl)
    as (st' & U & _ & X & _).
  exists st'. split; [exact U | exact X].
Defined.

(** ** What the move pass keeps *)

Lemma survivors_cons sp e o l :
  survivors sp e (o :: l)
  = if offscreen (moved sp e o) then survivors sp e l
    else moved sp e o :: survivors sp e l.
Proof.
  unfold survivors. simpl. destruct (offscreen (moved sp e o)); reflexivity.
Qed.

Lemma survivors_elem sp e l o' :
  o' ∈ survivors sp e l
  <-> exists o, o ∈ l /\ o' = moved sp e o /\ offscreen o' = false.
Proof.
  induction l as [| a l IH].
  - split; [intros I; inversion I | intros (o & I & _); inversion I].
  - rewrite survivors_cons. split.
    + intros I. destruct (offscreen (moved sp e a)) eqn:F.
      * apply IH in I. destruct I as (o & I & E). exists o.
        split; [right; exact I | exact E].
      * apply elem_of_cons in I. destruct I as [-> | I].
        -- exists a. split; [left | split; [reflexivity | exact F]].
        -- apply IH in I. destruct I as (o & I & E). exists o.
           split; [right; exact I | exact E].
    + intros (o & I & E & F). apply elem_of_cons in I. destruct I as [-> | I].
      * rewrite <- E, F. left.
      * assert (o' ∈ survivors sp e l) by (apply IH; eauto).
        destruct (offscreen (moved sp e a)); [assumption | right; assumption].
Qed.

Lemma survivors_onscreen sp e l :
  Forall (fun o => offscreen o = false) (survivors sp e l).
Proof.
  apply Forall_forall. intros o I. apply survivors_elem in I.
  destruct I as (_ & _ & _ & F). exact F.
Qed.

Lemma survivors_oid sp e l i :
  i ∈ oids (survivors sp e l) -> i ∈ oids l.
Proof.
  unfold oids. intros I. apply list_elem_of_fmap in I.
  destruct I as (o' & -> & I). apply survivors_elem in I.
  destruct I as (o & I & -> & _). rewrite moved_oid.
  apply list_elem_of_fmap. eauto.
Qed.

Lemma survivors_NoDup sp e l :
  NoDup (oids l) -> NoDup (oids (survivors sp e l)).
Proof.
  induction l as [| a l IH]; intros N.
  - constructor.
  - simpl in N. apply NoDup_cons in N. destruct N as [A N].
    rewrite survivors_cons. destruct (offscreen (moved sp e a)).
    + apply IH, N.
    + simpl. apply NoDup_cons. split; [| apply IH, N].
      rewrite moved_oid. intros I. apply A. eapply survivors_oid, I.
Qed.

(** An obstacle whose move puts it off screen is gone after the pass. *)
Lemma survivors_drops_offscreen sp e l o :
  NoDup (oids l) -> o ∈ l -> offscreen (moved sp e o) = true ->
  Obstacle.oid o ∉ oids (survivors sp e l).
Proof.
  intros N I F J. unfold oids in J. apply list_elem_of_fmap in J.
  destruct J as (o' & E & J). apply survivors_elem in J.
  destruct J as (o2 & I2 & -> & F2). rewrite moved_oid in E.
  assert (o = o2).
  { apply list_elem_of_lookup in I, I2.
    destruct I as (i & I). destruct I2 as (j & I2).
    assert (i = j).
    { eapply NoDup_lookup; [exact N | |];
        unfold oids; rewrite list_lookup_fmap.
      - rewrite I. reflexivity.
      - rewrite I2. simpl. rewrite E. reflexivity. }
    subst j. congruence. }
  subst o2. congruence.
Qed.

Lemma scoredNow_nonneg sp e l : (0 <= scoredNow sp e l)%Z.
Proof. unfold scoredNow. lia. Qed.

(** ** One event *)

Section Steps.

Variables W H : Z.

Lemma exec_cases e st st' :
  exec W H e st = Some st' ->
  (exists t1 t2,
      (e = Restart t1 t2 \/ (e = Activate t1 t2 /\ running st = false))
      /\ st' = reset H t1 t2 st)
  \/ (exists t1 t2 d,
         e = Activate t1 t2 /\ running st = true /\ drop st = Some d
         /\ st' = set_drop (Drop.set_vy lift d) st)
  \/ (exists now u,
         e = Frame now u /\ running st = false /\ st' = set_lastTime now st)
  \/ (exists now u d,
         e = Frame now u /\ running st = true /\ drop st = Some d
         /\ loop W H now u st = Some st').
Proof.
  destruct e as [t1 t2 | t1 t2 | now u]; simpl; intros E.
  - left. exists t1, t2. split; [left; reflexivity | congruence].
  - unfold flap in E. destruct (running st) eqn:R; simpl in E.
    + destruct (drop st) as [d |] eqn:D; [| discriminate E].
      right. left. exists t1, t2, d. repeat split; congruence.
    + left. exists t1, t2. split; [right; split; reflexivity | congruence].
  - destruct (running st) eqn:R.
    + destruct (drop st) as [d |] eqn:D.
      * right. right. right. exists now, u, d. repeat split; assumption.
      * unfold loop in E. rewrite (update_null W H _ now u st R D) in E.
        discriminate E.
    + right. right. left. exists now, u. split; [reflexivity |].
      split; [reflexivity |].
      unfold loop in E. rewrite (update_idle W H _ now u st R) in E.
      congruence.
Qed.

Lemma update_fields dt now u st d st' :
  running st = true -> drop st = Some d ->
  update W H dt now u st = Some st' ->
  let edge := Drop.x d - Drop.r d in
  drop st' = Some (integrate d)
  /\ obstacles st' = survivors (speed st') edge (spawned W H now u st)
  /\ score st' = (score st + scoredNow (speed st') edge (spawned W H now u st))%Z
  /\ speed st' = (if gateOpen now st && Num.lt (uSpeed u) 0.12
                  then speed st + 0.05 else speed st)
  /\ spawnInterval st'
     = (if gateOpen now st && Num.lt (uInterval u) 0.07
        then Num.Math_max 900 (spawnInterval st - 20) else spawnInterval st)
  /\ nextId st' = (if gateOpen now st then S (nextId st) else nextId st).
Proof.
  intros R D L.
  rewrite (update_running W H dt now u st d R D) in L.
  apply (inj Some) in L. subst st'. cbv zeta.
  set (st3 := afterMove W H now u d st).
  assert (F : forall (A : Type) (f : State -> A),
             (forall s, f (endGame s) = f s) ->
             f (if existsb (hitsPipe H (integrate d)) (obstacles st3)
                   || outOfBounds H (integrate d)
                then endGame st3 else st3) = f st3).
  { intros A f F1. destruct (_ || _); [apply F1 | reflexivity]. }
  rewrite (F _ drop), (F _ obstacles), (F _ score), (F _ speed),
    (F _ spawnInterval), (F _ nextId) by reflexivity.
  unfold st3.
  split; [apply afterMove_frame |].
  split; [apply afterMove_obstacles |].
  split; [apply afterMove_score |].
  split; [apply afterMove_speed |].
  split; [apply afterMove_spawnInterval |].
  apply afterMove_frame.
Qed.

Lemma loop_update now u st st' :
  loop W H now u st = Some st' ->
  exists s, update W H ((now - lastTime st) / 1000) now u st = Some s
            /\ st' = set_lastTime now s.
Proof.
  unfold loop. destruct (update W H _ now u st) as [s |]; [| discriminate].
  intros E. exists s. split; [reflexivity | congruence].
Qed.

Lemma loop_running now u st d st' :
  running st = true -> drop st = Some d ->
  loop W H now u st = Some st' ->
  let edge := Drop.x d - Drop.r d in
  drop st' = Some (integrate d)
  /\ obstacles st' = survivors (speed st') edge (spawned W H now u st)
  /\ score st' = (score st + scoredNow (speed st') edge (spawned W H now u st))%Z
  /\ speed st' = (if gateOpen now st && Num.lt (uSpeed u) 0.12
                  then speed st + 0.05 else speed st)
  /\ spawnInterval st'
     = (if gateOpen now st && Num.lt (uInterval u) 0.07
        then Num.Math_max 900 (spawnInterval st - 20) else spawnInterval st)
  /\ nextId st' = (if gateOpen now st then S (nextId st) else nextId st).
Proof.
  intros R D L. apply loop_update in L. destruct L as (s & U & ->).
  exact (update_fields _ now u st d s R D U).
Qed.

Lemma spawned_elem now u st o :
  o ∈ spawned W H now u st ->
  o ∈ obstacles st
  \/ (gateOpen now st = true /\ o = newObstacle W H (nextId st) (uGap u)).
Proof.
  unfold spawned. destruct (gateOpen now st); [| auto].
  intros I. apply elem_of_app in I. destruct I as [I | I]; [auto |].
  apply list_elem_of_singleton in I. auto.
Qed.

Lemma spawned_NoDup now u st :
  wellFormed st -> NoDup (oids (spawned W H now u st)).
Proof.
  intros (_ & _ & _ & _ & N & F). unfold spawned.
  destruct (gateOpen now st); [| exact N].
  unfold oids. rewrite fmap_app. apply NoDup_app.
  split; [exact N |]. split; [| apply NoDup_singleton].
  intros i I J. simpl in J. apply list_elem_of_singleton in J. subst i.
  apply list_elem_of_fmap in I. destruct I as (o & E & I).
  rewrite Forall_forall in F. destruct (F o I) as (B & _). lia.
Qed.

Lemma moved_obstacleOK sp o n :
  0 <= sp -> obstaclePre n o -> obstacleOK n (moved sp (110 - 14) o).
Proof.
  intros S (B & Wd & Sc). unfold obstacleOK.
  rewrite moved_oid, moved_w, moved_x, moved_scored.
  split; [exact B |]. split; [exact Wd |].
  rewrite orb_true_iff, lt_true. split.
  - intros [T | T]; [apply Sc in T; lra | exact T].
  - intros T. right. exact T.
Qed.

Lemma obstacleOK_pre n m o :
  (n <= m)%nat -> obstacleOK n o -> obstaclePre m o.
Proof.
  intros L (B & Wd & Sc). split; [lia |]. split; [exact Wd | apply Sc].
Qed.

Lemma fresh_obstaclePre n u : obstaclePre (S n) (newObstacle W H n u).
Proof.
  split; [simpl; lia |]. split; [reflexivity | discriminate].
Qed.

End Steps.

(** ** Invariants of the reachable states *)

Section Reachable.

Variables W H : Z.

Lemma initial_wellFormed page : wellFormed (initial page).
Proof.
  unfold wellFormed. simpl. split; [discriminate |].
  split; [discriminate |]. split; [lra |]. split; [lra |].
  split; constructor.
Qed.

Lemma reset_wellFormed t1 t2 st :
  wellFormed st -> wellFormed (reset H t1 t2 st).
Proof.
  intros (_ & _ & I & _). unfold wellFormed. simpl.
  split; [eauto |].
  split; [intros d E; injection E as <-; split; reflexivity |].
  split; [exact I |]. split; [lra |]. split; constructor.
Qed.

Lemma loop_wellFormed now u st d st' :
  wellFormed st -> running st = true -> drop st = Some d ->
  loop W H now u st = Some st' -> wellFormed st'.
Proof.
  intros WF R D L.
  pose proof (spawned_NoDup W H now u st WF) as ND.
  destruct WF as (_ & DX & I & S & N & F).
  destruct (DX d D) as (X110 & R14).
  destruct (loop_running W H now u st d st' R D L)
    as (D' & O' & _ & S' & I' & N').
  rewrite X110, R14 in O'.
  assert (S2 : 2.2 <= speed st').
  { rewrite S'.
    destruct (gateOpen now st && Num.lt (uSpeed u) 0.12); lra. }
  unfold wellFormed. split; [eauto |].
  split.
  { intros d' E. rewrite D' in E. injection E as <-. simpl. auto. }
  split.
  { rewrite I'.
    destruct (gateOpen now st && Num.lt (uInterval u) 0.07); [| exact I].
    destruct (Math_max_cases 900 (spawnInterval st - 20)) as [[? ->] | [? ->]];
      lra. }
  split; [exact S2 |].
  split; [rewrite O'; apply survivors_NoDup, ND |].
  rewrite O'. apply Forall_forall. intros o' J.
  apply survivors_elem in J. destruct J as (o & J & -> & _).
  apply moved_obstacleOK; [lra |].
  apply spawned_elem in J. destruct J as [J | [G ->]].
  - rewrite Forall_forall in F. apply (obstacleOK_pre (nextId st)).
    + rewrite N'. destruct (gateOpen now st); lia.
    + apply F, J.
  - rewrite N', G. apply fresh_obstaclePre.
Qed.

Lemma exec_wellFormed e st st' :
  wellFormed st -> exec W H e st = Some st' -> wellFormed st'.
Proof.
  intros WF E. apply exec_cases in E.
  destruct E as [(t1 & t2 & _ & ->) | [(t1 & t2 & d & _ & R & D & ->)
                | [(now & u & _ & R & ->) | (now & u & d & _ & R & D & L)]]].
  - apply reset_wellFormed, WF.
  - destruct WF as (_ & DX & I & S & N & F).
    unfold wellFormed. simpl. split; [eauto |].
    split; [| auto].
    intros d' E. injection E as <-. simpl. apply DX, D.
  - exact WF.
  - eapply loop_wellFormed; eassumption.
Qed.

Lemma reachable_wellFormed st : reachable W H st -> wellFormed st.
Proof.
  induction 1 as [page | st e st' _ IH _ E].
  - apply initial_wellFormed.
  - eapply exec_wellFormed; eassumption.
Qed.

Lemma run_wellFormed es :
  forall st st', wellFormed st -> run W H es st = Some st' -> wellFormed st'.
Proof.
  induction es as [| e es IH]; simpl; intros st st' WF E.
  - congruence.
  - destruct (exec W H e st) as [st1 |] eqn:X; [| discriminate E].
    eapply IH; [| exact E]. eapply exec_wellFormed; eassumption.
Qed.

Lemma run_reachable es :
  forall st st',
    reachable W H st -> Forall admissible es -> run W H es st = Some st' ->
    reachable W H st'.
Proof.
  induction es as [| e es IH]; simpl; intros st st' R A E.
  - congruence.
  - destruct (exec W H e st) as [st1 |] eqn:X; [| discriminate E].
    apply Forall_cons in A. destruct A as [A1 A].
    eapply IH; [| exact A | exact E].
    eapply reach_step; eassumption.
Qed.

(** No reachable state makes an event throw. *)
Lemma exec_total e st :
  wellFormed st -> exists st', exec W H e st = Some st'.
Proof.
  intros (RD & _). destruct e as [t1 t2 | t1 t2 | now u]; simpl.
  - eauto.
  - unfold flap. destruct (running st) eqn:R; simpl; [| eauto].
    destruct (RD eq_refl) as (d & ->). eauto.
  - unfold loop. destruct (running st) eqn:R.
    + destruct (RD eq_refl) as (d & D).
      rewrite (update_running W H _ now u st d R D). eauto.
    + rewrite (update_idle W H _ now u st R). eauto.
Qed.

End Reachable.

(** ** C8 and C10: the spawn interval *)

Lemma exec_spawnInterval W H e st st' :
  exec W H e st = Some st' ->
  spawnInterval st' = spawnInterval st
  \/ (exists now u,
         e = Frame now u /\ running st = true /\ gateOpen now st = true
         /\ uInterval u < 0.07
         /\ spawnInterval st' = Num.Math_max 900 (spawnInterval st - 20)).
Proof.
  intros E. apply exec_cases in E.
  destruct E as [(t1 & t2 & _ & ->) | [(t1 & t2 & d & _ & R & D & ->)
                | [(now & u & _ & R & ->) | (now & u & d & -> & R & D & L)]]];
    try (left; reflexivity).
  destruct (loop_running W H now u st d st' R D L) as (_ & _ & _ & _ & I & _).
  rewrite I. destruct (gateOpen now st) eqn:G; simpl; [| left; reflexivity].
  destruct (Num.lt (uInterval u) 0.07) eqn:U; [| left; reflexivity].
  right. exists now, u. apply lt_true in U. auto.
Qed.

Lemma spawn_event_lowers_interval W H now u st st' :
  running st = true -> gateOpen now st = true -> uInterval u < 0.07 ->
  exec W H (Frame now u) st = Some st' ->
  spawnInterval st' = Num.Math_max 900 (spawnInterval st - 20).
Proof.
  intros R G U E. apply exec_cases in E.
  destruct E as [(t1 & t2 & [X | [X _]] & _) | [(t1 & t2 & d & X & _)
                | [(now' & u' & _ & R' & _) | (now' & u' & d & X & _ & D & L)]]];
    try discriminate X; try congruence.
  injection X as <- <-.
  destruct (loop_running W H now u st d st' R D L) as (_ & _ & _ & _ & I & _).
  rewrite I, G. apply lt_true in U. rewrite U. reflexivity.
Qed.

Lemma exec_spawnInterval_floor W H e st st' :
  900 <= spawnInterval st -> exec W H e st = Some st' ->
  900 <= spawnInterval st'.
Proof.
  intros I E. destruct (exec_spawnInterval W H e st st' E)
    as [-> | (now & u & _ & _ & _ & _ & ->)]; [exact I |].
  destruct (Math_max_cases 900 (spawnInterval st - 20)) as [[? ->] | [? ->]];
    lra.
Qed.

Lemma exec_spawnInterval_le W H e st st' :
  900 <= spawnInterval st -> exec W H e st = Some st' ->
  spawnInterval st' <= spawnInterval st.
Proof.
  intros I E. destruct (exec_spawnInterval W H e st st' E)
    as [-> | (now & u & _ & _ & _ & _ & ->)]; [lra |].
  destruct (Math_max_cases 900 (spawnInterval st - 20)) as [[? ->] | [? ->]];
    lra.
Qed.

(** C8. The spawn interval starts at 1400.  An event either leaves it as
    it is or, in a frame of a run whose spawn gate fires and whose third
    random draw is below 0.07, replaces it by [max(900, interval - 20)];
    such a frame always does so.  Hence [900 <= spawnInterval] is kept by
    every event and holds in every reachable state. *)
Theorem spawnInterval_floor_invariant :
  forall W H : Z,
    (forall page, spawnInterval (initial page) = 1400)
    /\ (forall e st st',
           exec W H e st = Some st' ->
           spawnInterval st' = spawnInterval st
           \/ (exists now u,
                  e = Frame now u /\ running st = true
                  /\ gateOpen now st = true /\ uInterval u < 0.07
                  /\ spawnInterval st' = Num.Math_max 900 (spawnInterval st - 20)
                  /\ spawnInterval st' == Qmax 900 (spawnInterval st - 20)))
    /\ (forall now u st st',
           running st = true -> gateOpen now st = true -> uInterval u < 0.07 ->
           exec W H (Frame now u) st = Some st' ->
           spawnInterval st' = Num.Math_max 900 (spawnInterval st - 20))
    /\ (forall e st st',
           900 <= spawnInterval st -> exec W H e st = Some st' ->
           900 <= spawnInterval st')
    /\ (forall st, reachable W H st -> 900 <= spawnInterval st).
Proof.
  intros W H. split; [reflexivity |].
  split.
  { intros e st st' E.
    destruct (exec_spawnInterval W H e st st' E)
      as [-> | (now & u & X & R & G & U & I)]; [left; reflexivity |].
    right. exists now, u. repeat (split; [assumption |]).
    rewrite I. apply Math_max_Qmax. }
  split; [apply spawn_event_lowers_interval |].
  split; [apply exec_spawnInterval_floor |].
  intros st R. apply reachable_wellFormed in R. apply R.
Qed.

Lemma spawnInterval_floor_invariant_witness :
  exists st,
    run 480 640 [Restart 0 0; Frame 1401 lowDraws] (initial blankPage) = Some st
    /\ reachable 480 640 st
    /\ spawnInterval st == 1380
    /\ 900 <= spawnInterval st.
Proof.
  eexists. split; [vm_compute; reflexivity |].
  match goal with |- reachable _ _ ?s /\ _ => set (st := s) end.
  assert (R : reachable 480 640 st).
  { apply (run_reachable 480 640 [Restart 0 0; Frame 1401 lowDraws]
             (initial blankPage)).
    - apply reach_initial.
    - repeat constructor; discriminate.
    - vm_compute. reflexivity. }
  split; [exact R |]. split; [reflexivity |].
  exact (proj2 (proj2 (proj2 (proj2
           (spawnInterval_floor_invariant 480 640)))) st R).
Defined.

Lemma idle_to_running_is_reset W H e st st' :
  running st = false -> exec W H e st = Some st' -> running st' = true ->
  exists t1 t2, st' = reset H t1 t2 st.
Proof.
  intros R E R'. apply exec_cases in E.
  destruct E as [(t1 & t2 & _ & ->) | [(t1 & t2 & d & _ & X & _)
                | [(now & u & _ & _ & ->) | (now & u & d & _ & X & _)]]];
    try congruence.
  - eauto.
  - simpl in R'. congruence.
Qed.

Lemma run_spawnInterval_le W H es :
  forall st st',
    900 <= spawnInterval st -> run W H es st = Some st' ->
    spawnInterval st' <= spawnInterval st.
Proof.
  induction es as [| e es IH]; simpl; intros st st' I E.
  - injection E as <-. lra.
  - destruct (exec W H e st) as [st1 |] eqn:X; [| discriminate E].
    pose proof (exec_spawnInterval_le W H e st st1 I X).
    pose proof (exec_spawnInterval_floor W H e st st1 I X) as I1.
    pose proof (IH st1 st' I1 E). lra.
Qed.

(** C10. [reset], which every transition from idle to running goes
    through, puts the speed back to 2.2, the score to 0, the drop to its
    initial state and empties the obstacle array, and keeps the spawn
    interval of the previous run.  From a reachable state no event, and so
    no sequence of events over any number of runs, raises the spawn
    interval. *)
Theorem reset_keeps_spawnInterval :
  forall W H : Z,
    (forall t1 t2 st,
        speed (reset H t1 t2 st) = 2.2
        /\ score (reset H t1 t2 st) = 0%Z
        /\ drop (reset H t1 t2 st) = Some (initialDrop H)
        /\ obstacles (reset H t1 t2 st) = []
        /\ running (reset H t1 t2 st) = true
        /\ spawnInterval (reset H t1 t2 st) = spawnInterval st)
    /\ (forall e st st',
           running st = false -> exec W H e st = Some st' ->
           running st' = true ->
           exists t1 t2, st' = reset H t1 t2 st)
    /\ (forall st e st',
           reachable W H st -> exec W H e st = Some st' ->
           spawnInterval st' <= spawnInterval st)
    /\ (forall st es st',
           reachable W H st -> run W H es st = Some st' ->
           spawnInterval st' <= spawnInterval st).
Proof.
  intros W H. split; [intros; repeat split; reflexivity |].
  split; [apply idle_to_running_is_reset |].
  split.
  - intros st e st' R E. apply reachable_wellFormed in R.
    eapply exec_spawnInterval_le; [apply R | exact E].
  - intros st es st' R E. apply reachable_wellFormed in R.
    eapply run_spawnInterval_le; [apply R | exact E].
Qed.

(** On a canvas 100 wide the first obstacle appears on top of the drop:
    the frame that spawns it lowers the interval to 1380 and ends the run.
    The next run starts with 1380, the speed back at 2.2. *)
Lemma reset_keeps_spawnInterval_witness :
  exists st st',
    run 100 640 [Restart 0 0; Frame 1401 lowGapDraws] (initial blankPage)
    = Some st
    /\ reachable 100 640 st
    /\ running st = false
    /\ exec 100 640 (Activate 3000 3000) st = Some st'
    /\ running st' = true
    /\ spawnInterval st == 1380
    /\ spawnInterval st' = spawnInterval st
    /\ speed st' = 2.2
    /\ spawnInterval st' <= spawnInterval st.
Proof.
  eexists. eexists. split; [vm_compute; reflexivity |].
  match goal with |- reachable _ _ ?s /\ _ => set (st := s) end.
  assert (R : reachable 100 640 st).
  { apply (run_reachable 100 640 [Restart 0 0; Frame 1401 lowGapDraws]
             (initial blankPage)).
    - apply reach_initial.
    - repeat constructor; discriminate.
    - vm_compute. reflexivity. }
  split; [exact R |]. split; [reflexivity |].
  split; [reflexivity |]. split; [reflexivity |].
  split; [reflexivity |]. split; [reflexivity |].
  split; [reflexivity |].
  exact (proj1 (proj2 (proj2 (reset_keeps_spawnInterval 100 640)))
           st (Activate 3000 3000) _ R eq_refl).
Defined.

(** ** C4: where the gap may be *)

Lemma pickGapY_floor (H : Z) (u : Q) :
  (320 <= H)%Z -> unit_draw u ->
  exists f : Z,
    pickGapY H u = inject_Z f + 90 /\ (0 <= f)%Z /\ (f <= H - 320)%Z.
Proof.
  intros HH [U0 U1].
  set (n := maxGapY H - minGapY + 1).
  assert (N : n == inject_Z (H - 319)).
  { unfold n, maxGapY, minGapY, gapHeight, Z.sub.
    rewrite inject_Z_plus. change (inject_Z (- (319))) with (-319). lra. }
  assert (N1 : 1 <= n).
  { rewrite N. change 1 with (inject_Z 1). rewrite <- Zle_Qle. lia. }
  exists (Qfloor (u * n)). split; [reflexivity |]. split.
  - change 0%Z with (Qfloor 0). apply Qfloor_resp_le.
    apply Qmult_le_0_compat; lra.
  - assert (L : inject_Z (Qfloor (u * n)) < inject_Z (H - 319)).
    { eapply Qle_lt_trans; [apply Qfloor_le |].
      eapply Qlt_le_trans; [apply (Qmult_lt_compat_r u 1 n); lra |].
      rewrite <- N. lra. }
    rewrite <- Zlt_Qlt in L. lia.
Qed.

Lemma fresh_gapOK (W H : Z) (id : nat) (u : Q) :
  (320 <= H)%Z -> unit_draw u -> gapOK H (newObstacle W H id u).
Proof.
  intros HH U. destruct (pickGapY_floor H u HH U) as (f & E & F0 & F1).
  unfold gapOK. simpl. rewrite E.
  rewrite Zle_Qle in F0, F1. change (inject_Z 0) with 0 in F0.
  assert (F2 : inject_Z f <= inject_Z H - 320).
  { unfold Z.sub in F1. rewrite inject_Z_plus in F1.
    change (inject_Z (- (320))) with (-320) in F1. lra. }
  split.
  - exists (f + 90)%Z. rewrite inject_Z_plus. reflexivity.
  - split; [reflexivity |]. unfold gapHeight. split; lra.
Qed.

Lemma moved_gapOK (H : Z) sp e o : gapOK H o -> gapOK H (moved sp e o).
Proof.
  unfold gapOK. rewrite moved_gapY, moved_gapH. auto.
Qed.

Lemma exec_gapOK (W H : Z) e st st' :
  (320 <= H)%Z -> admissible e -> exec W H e st = Some st' ->
  Forall (gapOK H) (obstacles st) -> Forall (gapOK H) (obstacles st').
Proof.
  intros HH A E F. apply exec_cases in E.
  destruct E as [(t1 & t2 & _ & ->) | [(t1 & t2 & d & _ & R & D & ->)
                | [(now & u & _ & R & ->) | (now & u & d & -> & R & D & L)]]];
    try exact F.
  - constructor.
  - destruct (loop_running W H now u st d st' R D L) as (_ & O & _).
    rewrite O. apply Forall_forall. intros o' J.
    apply survivors_elem in J. destruct J as (o & J & -> & _).
    apply moved_gapOK. apply spawned_elem in J. destruct J as [J | [_ ->]].
    + rewrite Forall_forall in F. apply F, J.
    + apply fresh_gapOK; [exact HH | apply A].
Qed.

Lemma reachable_gapOK (W H : Z) st :
  (320 <= H)%Z -> reachable W H st -> Forall (gapOK H) (obstacles st).
Proof.
  intros HH R. induction R as [page | st e st' _ IH A E].
  - constructor.
  - eapply exec_gapOK; eassumption.
Qed.

(** C4 as the specification words it, for any canvas, does not hold on a
    canvas lower than 320: with the height 150 (what a canvas element has
    when none is given) and the draw 0.5, the first obstacle of a run has
    its gap at 5, above the margin of 90, and the gap's lower end at 145,
    below the bound 150 - 90. *)
Lemma gap_outside_margins_on_low_canvas :
  exists st ob,
    run 480 150 [Restart 0 0; Frame 1401 midDraws] (initial blankPage) = Some st
    /\ fair midDraws
    /\ obstacles st = [ob]
    /\ Obstacle.gapY ob == 5
    /\ ~ minGapY <= Obstacle.gapY ob
    /\ ~ Obstacle.gapY ob + Obstacle.gapH ob <= inject_Z 150 - minGapY.
Proof.
  eexists. eexists. split; [vm_compute; reflexivity |].
  split; [repeat split; discriminate |].
  split; [reflexivity |]. split; [reflexivity |].
  split; intros L; vm_compute in L; apply L; reflexivity.
Qed.

(** C4 (amended). On a canvas at least 320 high, every obstacle the
    generator produces, for every random draw in [0, 1), has an integer
    gap-top-y with [90 <= gapY] and [gapY + gapH <= H - 90], [gapH] being
    140; the move pass changes neither field, so the bound holds for every
    obstacle of every reachable state. *)
Theorem gap_within_margins :
  forall W H : Z,
    (320 <= H)%Z ->
    (forall (id : nat) (u : Q),
        unit_draw u ->
        let ob := newObstacle W H id u in
        (exists z : Z, Obstacle.gapY ob == inject_Z z)
        /\ Obstacle.gapH ob = 140
        /\ minGapY <= Obstacle.gapY ob
        /\ Obstacle.gapY ob + Obstacle.gapH ob <= inject_Z H - minGapY)
    /\ (forall sp e o,
           Obstacle.gapY (moved sp e o) = Obstacle.gapY o
           /\ Obstacle.gapH (moved sp e o) = Obstacle.gapH o)
    /\ (forall st,
           reachable W H st ->
           forall ob, ob ∈ obstacles st ->
             (exists z : Z, Obstacle.gapY ob == inject_Z z)
             /\ Obstacle.gapH ob = 140
             /\ minGapY <= Obstacle.gapY ob
             /\ Obstacle.gapY ob + Obstacle.gapH ob <= inject_Z H - minGapY).
Proof.
  intros W H HH. split; [| split].
  - intros id u U. exact (fresh_gapOK W H id u HH U).
  - intros sp e o. split; [apply moved_gapY | apply moved_gapH].
  - intros st R ob I.
    pose proof (reachable_gapOK W H st HH R) as F.
    rewrite Forall_forall in F. exact (F ob I).
Qed.

Lemma gap_within_margins_witness :
  (320 <= 640)%Z
  /\ unit_draw 0.5
  /\ Obstacle.gapY (newObstacle 480 640 0 0.5) == 250
  /\ minGapY <= Obstacle.gapY (newObstacle 480 640 0 0.5)
  /\ Obstacle.gapY (newObstacle 480 640 0 0.5)
     + Obstacle.gapH (newObstacle 480 640 0 0.5) <= inject_Z 640 - minGapY.
Proof.
  assert (HH : (320 <= 640)%Z) by lia.
  assert (U : unit_draw 0.5) by (split; [discriminate | reflexivity]).
  split; [exact HH |]. split; [exact U |].
  split; [vm_compute; reflexivity |].
  destruct (proj1 (gap_within_margins 480 640 HH) 0%nat 0.5 U)
    as (_ & _ & Lo & Hi).
  split; [exact Lo | exact Hi].
Defined.

(** ** Obstacles across events *)

Lemma same_oid_same_obstacle (l : list Obstacle.t) o1 o2 :
  NoDup (oids l) -> o1 ∈ l -> o2 ∈ l -> Obstacle.oid o1 = Obstacle.oid o2 ->
  o1 = o2.
Proof.
  intros N I1 I2 E.
  apply list_elem_of_lookup in I1, I2.
  destruct I1 as (i & I1). destruct I2 as (j & I2).
  assert (i = j).
  { eapply NoDup_lookup; [exact N | |]; unfold oids; rewrite list_lookup_fmap.
    - rewrite I1. reflexivity.
    - rewrite I2. simpl. rewrite E. reflexivity. }
  subst j. congruence.
Qed.

Lemma newlyScored_transition sp e o :
  newlyScored sp e o
  = negb (Obstacle.scored o) && Obstacle.scored (moved sp e o).
Proof.
  rewrite moved_scored. unfold newlyScored, passes. simpl.
  destruct (Obstacle.scored o); reflexivity.
Qed.

Section Traces.

Variables W H : Z.

Lemma spawned_old now u st o :
  o ∈ obstacles st -> o ∈ spawned W H now u st.
Proof.
  intros I. unfold spawned. destruct (gateOpen now st); [| exact I].
  apply elem_of_app. left. exact I.
Qed.

(** From one event to the next an obstacle either stays as it is or is
    the result of one move. *)
Lemma exec_same_obstacle e st st' o o' :
  wellFormed st -> exec W H e st = Some st' ->
  o ∈ obstacles st -> o' ∈ obstacles st' ->
  Obstacle.oid o' = Obstacle.oid o ->
  o' = o \/ exists sp, 0 <= sp /\ o' = moved sp (110 - 14) o.
Proof.
  intros WF E I I' Id.
  pose proof (exec_wellFormed W H e st st' WF E) as WF'.
  apply exec_cases in E.
  destruct E as [(t1 & t2 & _ & ->) | [(t1 & t2 & d & _ & R & D & ->)
                | [(now & u & _ & R & ->) | (now & u & d & -> & R & D & L)]]].
  - inversion I'.
  - left. destruct WF as (_ & _ & _ & _ & N & _).
    eapply same_oid_same_obstacle; eauto.
  - left. destruct WF as (_ & _ & _ & _ & N & _).
    eapply same_oid_same_obstacle; eauto.
  - right. exists (speed st'). split; [destruct WF' as (_ & _ & _ & S & _); lra |].
    pose proof (spawned_NoDup W H now u st WF) as ND.
    destruct WF as (_ & DX & _).
    destruct (DX d D) as (X110 & R14).
    destruct (loop_running W H now u st d st' R D L) as (_ & O & _).
    rewrite X110, R14 in O. rewrite O in I'.
    apply survivors_elem in I'. destruct I' as (o2 & I2 & -> & _).
    rewrite moved_oid in Id. f_equal.
    eapply same_oid_same_obstacle; eauto using spawned_old.
Qed.

Lemma exec_scored_kept e st st' o o' :
  wellFormed st -> exec W H e st = Some st' ->
  o ∈ obstacles st -> o' ∈ obstacles st' ->
  Obstacle.oid o' = Obstacle.oid o ->
  Obstacle.scored o = true -> Obstacle.scored o' = true.
Proof.
  intros WF E I I' Id S.
  destruct (exec_same_obstacle e st st' o o' WF E I I' Id)
    as [-> | (sp & _ & ->)]; [exact S |].
  rewrite moved_scored, S. reflexivity.
Qed.

Lemma exec_nextId_le e st st' :
  exec W H e st = Some st' -> (nextId st <= nextId st')%nat.
Proof.
  intros E. apply exec_cases in E.
  destruct E as [(t1 & t2 & _ & ->) | [(t1 & t2 & d & _ & R & D & ->)
                | [(now & u & _ & R & ->) | (now & u & d & -> & R & D & L)]]];
    try (simpl; lia).
  destruct (loop_running W H now u st d st' R D L) as (_ & _ & _ & _ & _ & N).
  rewrite N. destruct (gateOpen now st); lia.
Qed.

(** Identities are never handed out twice: one that is below the
    allocation counter and not in the array stays out of it. *)
Lemma exec_absent_stays e st st' i :
  (i < nextId st)%nat -> i ∉ oids (obstacles st) ->
  exec W H e st = Some st' ->
  i ∉ oids (obstacles st').
Proof.
  intros B A E J. apply exec_cases in E.
  destruct E as [(t1 & t2 & _ & ->) | [(t1 & t2 & d & _ & R & D & ->)
                | [(now & u & _ & R & ->) | (now & u & d & -> & R & D & L)]]];
    try (apply A; exact J).
  - inversion J.
  - destruct (loop_running W H now u st d st' R D L) as (_ & O & _).
    rewrite O in J. apply survivors_oid in J.
    unfold oids in J. apply list_elem_of_fmap in J.
    destruct J as (o & -> & J). apply spawned_elem in J.
    destruct J as [J | [_ ->]].
    + apply A. unfold oids. apply list_elem_of_fmap.
      exists o. split; [reflexivity | exact J].
    + simpl in B. lia.
Qed.

Lemma run_absent_stays es :
  forall st st' i,
    (i < nextId st)%nat -> i ∉ oids (obstacles st) ->
    run W H es st = Some st' ->
    i ∉ oids (obstacles st').
Proof.
  induction es as [| e es IH]; simpl; intros st st' i B A E.
  - injection E as <-. exact A.
  - destruct (exec W H e st) as [st1 |] eqn:X; [| discriminate E].
    apply (IH st1 st' i); [| | exact E].
    + pose proof (exec_nextId_le e st st1 X). lia.
    + eapply exec_absent_stays; eassumption.
Qed.

Lemma run_scored_kept es :
  forall st st' o o',
    wellFormed st -> run W H es st = Some st' ->
    o ∈ obstacles st -> o' ∈ obstacles st' ->
    Obstacle.oid o' = Obstacle.oid o ->
    Obstacle.scored o = true -> Obstacle.scored o' = true.
Proof.
  induction es as [| e es IH]; simpl; intros st st' o o' WF E I I' Id S.
  - injection E as <-. destruct WF as (_ & _ & _ & _ & N & _).
    rewrite (same_oid_same_obstacle (obstacles st) o' o N I' I Id). exact S.
  - destruct (exec W H e st) as [st1 |] eqn:X; [| discriminate E].
    pose proof (exec_wellFormed W H e st st1 WF X) as WF1.
    destruct (decide (Obstacle.oid o ∈ oids (obstacles st1))) as [J | J].
    + unfold oids in J. apply list_elem_of_fmap in J.
      destruct J as (o1 & Id1 & J).
      apply (IH st1 st' o1 o' WF1 E J I'); [congruence |].
      apply (exec_scored_kept e st st1 o o1 WF X I J); [congruence | exact S].
    + exfalso.
      assert (B : (Obstacle.oid o < nextId st1)%nat).
      { destruct WF as (_ & _ & _ & _ & _ & F). rewrite Forall_forall in F.
        destruct (F o I) as (B & _).
        pose proof (exec_nextId_le e st st1 X). lia. }
      apply (run_absent_stays es st1 st' (Obstacle.oid o) B J E).
      unfold oids. apply list_elem_of_fmap.
      exists o'. split; [congruence | exact I'].
Qed.

Lemma exec_score e st st' :
  exec W H e st = Some st' ->
  (score st <= score st')%Z
  \/ exists t1 t2,
       (e = Restart t1 t2 \/ (e = Activate t1 t2 /\ running st = false))
       /\ st' = reset H t1 t2 st.
Proof.
  intros E. apply exec_cases in E.
  destruct E as [(t1 & t2 & K & ->) | [(t1 & t2 & d & _ & R & D & ->)
                | [(now & u & _ & R & ->) | (now & u & d & -> & R & D & L)]]];
    try (left; simpl; lia).
  - right. eauto.
  - left. destruct (loop_running W H now u st d st' R D L) as (_ & _ & S & _).
    rewrite S. pose proof (scoredNow_nonneg (speed st') (Drop.x d - Drop.r d)
                             (spawned W H now u st)). lia.
Qed.

End Traces.

(** ** C6: the scored flag and the score *)

(** C6. The move pass leaves an obstacle's flag at [scored || passed],
    [passed] saying that the trailing edge [x + w], after the move, is left
    of the drop's leading edge [drop.x - drop.r]: a set flag stays set, and
    an unset one is set in the very step in which the edge passes.  In
    every reachable state the flag is set exactly for the obstacles whose
    trailing edge has passed, so the step that sets it is the first one in
    which it has passed.  Along any sequence of events an obstacle (followed
    by its identity) that is scored remains scored.  A physics step raises
    the score by the number of obstacles whose flag it turns from false to
    true; no event other than a reset lowers the score; a reset, which
    every transition from idle to running is, sets it to 0. *)
Theorem scored_once_score_monotone :
  forall W H : Z,
    (forall sp e o,
        Obstacle.scored (moved sp e o)
        = Obstacle.scored o || Num.lt (Obstacle.x o - sp + Obstacle.w o) e)
    /\ (forall st,
           reachable W H st ->
           wellFormed st
           /\ forall o, o ∈ obstacles st ->
                (Obstacle.scored o = true
                 <-> Obstacle.x o + Obstacle.w o < 110 - 14))
    /\ (forall st es st' o o',
           wellFormed st -> run W H es st = Some st' ->
           o ∈ obstacles st -> o' ∈ obstacles st' ->
           Obstacle.oid o' = Obstacle.oid o ->
           Obstacle.scored o = true -> Obstacle.scored o' = true)
    /\ (forall dt now u st d st',
           running st = true -> drop st = Some d ->
           update W H dt now u st = Some st' ->
           score st'
           = (score st
              + Z.of_nat
                  (length
                     (List.filter
                        (fun o =>
                           negb (Obstacle.scored o)
                           && Obstacle.scored
                                (moved (speed st') (Drop.x d - Drop.r d) o))
                        (spawned W H now u st))))%Z)
    /\ (forall e st st',
           exec W H e st = Some st' ->
           (score st <= score st')%Z
           \/ exists t1 t2,
                (e = Restart t1 t2 \/ (e = Activate t1 t2 /\ running st = false))
                /\ st' = reset H t1 t2 st)
    /\ (forall t1 t2 st, score (reset H t1 t2 st) = 0%Z)
    /\ (forall e st st',
           running st = false -> exec W H e st = Some st' ->
           running st' = true -> score st' = 0%Z).
Proof.
  intros W H. split; [apply moved_scored |].
  split.
  { intros st R. apply reachable_wellFormed in R. split; [exact R |].
    intros o I. destruct R as (_ & _ & _ & _ & _ & F).
    rewrite Forall_forall in F. apply (F o I). }
  split; [intros st es; apply run_scored_kept |].
  split.
  { intros dt now u st d st' R D U.
    destruct (update_fields W H dt now u st d st' R D U) as (_ & _ & S & _).
    rewrite S. unfold scoredNow. do 3 f_equal.
    apply List.filter_ext. intros o. apply newlyScored_transition. }
  split; [apply exec_score |].
  split; [reflexivity |].
  intros e st st' R E R'.
  destruct (idle_to_running_is_reset W H e st st' R E R') as (t1 & t2 & ->).
  reflexivity.
Qed.

(** An obstacle whose trailing edge stands at 97 is scored by the next
    frame (94.8 < 96), the score goes to 1, and the flag is still set a
    frame later. *)
Lemma scored_once_score_monotone_witness :
  let st := midRun [pipeAt 0 13 false] 1 in
  running st = true
  /\ exists st1 o1 st2 o2,
       update 480 640 0.016 16 midDraws st = Some st1
       /\ obstacles st1 = [o1] /\ Obstacle.scored o1 = true
       /\ score st1 = 1%Z
       /\ wellFormed st1
       /\ run 480 640 [Frame 32 midDraws] st1 = Some st2
       /\ obstacles st2 = [o2] /\ Obstacle.oid o2 = Obstacle.oid o1
       /\ Obstacle.scored o2 = true.
Proof.
  intros st. split; [reflexivity |].
  eexists. eexists. eexists. eexists.
  split; [vm_compute; reflexivity |].
  split; [reflexivity |]. split; [reflexivity |]. split; [reflexivity |].
  match goal with |- wellFormed ?s /\ _ => set (st1 := s) end.
  assert (WF : wellFormed st1).
  { unfold wellFormed, st1. simpl.
    split; [eauto |].
    split; [intros d E; injection E as <-; split; reflexivity |].
    split; [discriminate |]. split; [discriminate |].
    split; [apply NoDup_singleton |].
    repeat constructor; simpl; try lia; reflexivity. }
  split; [exact WF |].
  split; [vm_compute; reflexivity |].
  split; [reflexivity |]. split; [reflexivity |].
  match goal with |- Obstacle.scored ?o = true => set (o2 := o) end.
  refine (proj1 (proj2 (proj2 (scored_once_score_monotone 480 640)))
            st1 [Frame 32 midDraws] _ _ o2 WF _ _ _ _ _);
    [vm_compute; reflexivity | left | left | reflexivity | reflexivity].
Defined.

(** ** C9: pruning *)

Lemma offscreen_true o :
  offscreen o = true <-> Obstacle.x o + Obstacle.w o < -50.
Proof. unfold offscreen. apply lt_true. Qed.

(** C9. A physics step of a run leaves exactly the moved obstacles whose
    trailing edge is not past -50, in their order: the backwards loop with
    [splice] skips none.  So no obstacle of the resulting array has
    [x + w < -50], and an obstacle whose move took it past -50 is gone from
    it.  An obstacle that an event removed from the array is in no array of
    any later state.  (Reachable states are well formed.) *)
Theorem offscreen_obstacles_pruned :
  forall W H : Z,
    (forall dt now u st d st',
        running st = true -> drop st = Some d ->
        update W H dt now u st = Some st' ->
        obstacles st'
        = List.filter (fun o => negb (offscreen o))
            (map (moved (speed st') (Drop.x d - Drop.r d))
               (spawned W H now u st))
        /\ Forall (fun o => ~ Obstacle.x o + Obstacle.w o < -50)
             (obstacles st'))
    /\ (forall dt now u st d st' o,
           wellFormed st ->
           running st = true -> drop st = Some d ->
           update W H dt now u st = Some st' ->
           o ∈ spawned W H now u st ->
           Obstacle.x o - speed st' + Obstacle.w o < -50 ->
           Obstacle.oid o ∉ oids (obstacles st'))
    /\ (forall st e st' o es st'',
           wellFormed st ->
           exec W H e st = Some st' ->
           o ∈ obstacles st ->
           Obstacle.oid o ∉ oids (obstacles st') ->
           run W H es st' = Some st'' ->
           Obstacle.oid o ∉ oids (obstacles st''))
    /\ (forall st, reachable W H st -> wellFormed st).
Proof.
  intros W H. split; [| split; [| split]].
  - intros dt now u st d st' R D U.
    destruct (update_fields W H dt now u st d st' R D U) as (_ & O & _).
    split; [exact O |]. rewrite O.
    eapply Forall_impl; [apply survivors_onscreen |].
    intros o F L. apply offscreen_true in L. congruence.
  - intros dt now u st d st' o WF R D U I Off.
    destruct (update_fields W H dt now u st d st' R D U) as (_ & O & _).
    rewrite O. apply survivors_drops_offscreen.
    + apply spawned_NoDup, WF.
    + exact I.
    + apply offscreen_true. rewrite moved_x, moved_w. exact Off.
  - intros st e st' o es st'' WF E I A R.
    apply (run_absent_stays W H es st' st'' (Obstacle.oid o)); [| exact A | exact R].
    destruct WF as (_ & _ & _ & _ & _ & F). rewrite Forall_forall in F.
    destruct (F o I) as (B & _).
    pose proof (exec_nextId_le W H e st st' E). lia.
  - apply reachable_wellFormed.
Qed.

(** An obstacle at -133 is moved to -135.2; its trailing edge, -51.2, is
    past -50: the step removes it, and it is absent two frames and one
    spawn later. *)
Lemma offscreen_obstacles_pruned_witness :
  let st := midRun [pipeAt 0 (-133) true; pipeAt 1 200 false] 2 in
  let o := pipeAt 0 (-133) true in
  wellFormed st
  /\ o ∈ obstacles st
  /\ exists st' st'',
       exec 480 640 (Frame 16 midDraws) st = Some st'
       /\ oids (obstacles st') = [1%nat]
       /\ run 480 640 [Frame 32 midDraws; Frame 1500 midDraws] st' = Some st''
       /\ oids (obstacles st'') = [1%nat; 2%nat]
       /\ Obstacle.oid o ∉ oids (obstacles st'').
Proof.
  intros st o.
  assert (WF : wellFormed st).
  { unfold wellFormed, st. simpl.
    split; [eauto |].
    split; [intros d E; injection E as <-; split; reflexivity |].
    split; [discriminate |]. split; [discriminate |].
    split.
    - apply NoDup_cons. split; [| apply NoDup_singleton].
      intros X. apply list_elem_of_singleton in X. discriminate X.
    - repeat constructor; simpl; try lia; try reflexivity; discriminate. }
  split; [exact WF |]. split; [left |].
  eexists. eexists.
  split; [vm_compute; reflexivity |].
  split; [reflexivity |].
  split; [vm_compute; reflexivity |].
  split; [reflexivity |].
  match goal with |- _ ∉ oids (obstacles ?s) => set (st'' := s) end.
  refine (proj1 (proj2 (proj2 (offscreen_obstacles_pruned 480 640)))
            st (Frame 16 midDraws) _ o
            [Frame 32 midDraws; Frame 1500 midDraws] st'' WF _ _ _ _).
  - vm_compute. reflexivity.
  - left.
  - intros X. apply list_elem_of_singleton in X. discriminate X.
  - vm_compute. reflexivity.
Defined.

(** * Further properties of the code *)

(** ** When a frame ends the run *)

Lemma update_running_flag :
  forall (W H : Z) (dt now : Q) (u : Draws) (st : State) (d : Drop.t) st',
    running st = true -> drop st = Some d ->
    update W H dt now u st = Some st' ->
    (running st' = false
     <-> (exists ob, ob ∈ obstacles st' /\ hitsPipe H (integrate d) ob = true)
         \/ inject_Z H < Drop.y (integrate d) - Drop.r (integrate d)
         \/ Drop.y (integrate d) + Drop.r (integrate d) < 0).
Proof.
  intros W H dt now u st d st' R D U.
  rewrite (update_running W H dt now u st d R D) in U.
  apply (inj Some) in U. subst st'.
  set (st3 := afterMove W H now u d st).
  assert (R3 : running st3 = true).
  { unfold st3. destruct (afterMove_frame W H now u d st) as (_ & E & _).
    congruence. }
  assert (C : existsb (hitsPipe H (integrate d)) (obstacles st3) = true
              <-> exists ob, ob ∈ obstacles st3
                             /\ hitsPipe H (integrate d) ob = true).
  { rewrite existsb_exists. split; intros (ob & I & T); exists ob;
      (split; [apply list_elem_of_In; exact I | exact T]). }
  assert (O : outOfBounds H (integrate d) = true
              <-> inject_Z H < Drop.y (integrate d) - Drop.r (integrate d)
                  \/ Drop.y (integrate d) + Drop.r (integrate d) < 0).
  { unfold outOfBounds. rewrite orb_true_iff, !lt_true. reflexivity. }
  destruct (existsb (hitsPipe H (integrate d)) (obstacles st3)) eqn:E1;
    destruct (outOfBounds H (integrate d)) eqn:E2; simpl.
  - split; [intros _; left; apply C; reflexivity | reflexivity].
  - split; [intros _; left; apply C; reflexivity | reflexivity].
  - split; [intros _; right; apply O; reflexivity | reflexivity].
  - split; [intros X; change (running st3 = false) in X;
             rewrite R3 in X; discriminate X |].
    intros [X | X]; [apply C in X | apply O in X]; discriminate X.
Qed.

(** X1. A physics step of a run ends the run exactly when, after the
    integration, the drop hits a pipe of an obstacle still in the array
    after pruning, or has wholly left the canvas ([y - r > H] or
    [y + r < 0]); otherwise the run goes on. *)
Theorem update_ends_run_iff :
  forall (W H : Z) (dt now : Q) (u : Draws) (st : State) (d : Drop.t) st',
    running st = true -> drop st = Some d ->
    update W H dt now u st = Some st' ->
    (running st' = false
     <-> (exists ob, ob ∈ obstacles st' /\ hitsPipe H (integrate d) ob = true)
         \/ inject_Z H < Drop.y (integrate d) - Drop.r (integrate d)
         \/ Drop.y (integrate d) + Drop.r (integrate d) < 0).
Proof. exact update_running_flag. Qed.

Lemma update_ends_run_iff_witness :
  let st := midRun [pipeAt 0 100 false] 1 in
  running st = true
  /\ exists st',
       update 480 640 0.016 16 midDraws st = Some st'
       /\ running st' = true
       /\ ~ (exists ob, ob ∈ obstacles st'
                        /\ hitsPipe 640 (integrate (initialDrop 640)) ob = true).
Proof.
  intros st. split; [reflexivity |].
  eexists. split; [vm_compute; reflexivity |].
  split; [reflexivity |].
  match goal with |- ~ (exists ob, ob ∈ obstacles ?s /\ _) => set (st' := s) end.
  assert (U : update 480 640 0.016 16 midDraws st = Some st')
    by (vm_compute; reflexivity).
  destruct (update_ends_run_iff 480 640 0.016 16 midDraws st
              (initialDrop 640) st' eq_refl eq_refl U) as (_ & E).
  intros X.
  assert (F : running st' = false) by (apply E; left; exact X).
  discriminate F.
Defined.

(** ** Which obstacles can hit the drop *)





Lemma hit_when_over (cx cy r rx ry rw rh : Q) :
  0 <= r -> rx <= cx -> cx <= rx + rw ->
  cy <= ry + rh -> ry - cy <= r ->
  circleRectColliding cx cy r rx ry rw rh = true.
Proof.
  intros R X1 X2 Y1 Y2. unfold circleRectColliding. cbv zeta.
  apply le_true.
  assert (Ex : Num.Math_max rx (Num.Math_min cx (rx + rw)) == cx).
  { destruct (Math_min_cases cx (rx + rw)) as [[L ->] | [L ->]];
      [| lra].
    destruct (Math_max_cases rx cx) as [[L' ->] | [L' ->]]; lra. }
  rewrite Ex.
  destruct (Math_min_cases cy (ry + rh)) as [[L ->] | [L ->]]; [| lra].
  destruct (Math_max_cases ry cy) as [[L' ->] | [L' ->]].
  - pose proof (Qmult_le_0_compat r r R R). nra.
  - assert (0 <= ry - cy) by lra.
    assert (0 <= r - (ry - cy)) by lra.
    pose proof (Qmult_le_0_compat _ _ H H0).
    pose proof (Qmult_le_0_compat _ _ H H).
    nra.
Qed.

Lemma hit_when_under (cx cy r rx ry rw rh : Q) :
  0 <= r -> 0 <= rh -> rx <= cx -> cx <= rx + rw ->
  ry <= cy -> cy - (ry + rh) <= r ->
  circleRectColliding cx cy r rx ry rw rh = true.
Proof.
  intros R Hh X1 X2 Y1 Y2. unfold circleRectColliding. cbv zeta.
  apply le_true.
  assert (Ex : Num.Math_max rx (Num.Math_min cx (rx + rw)) == cx).
  { destruct (Math_min_cases cx (rx + rw)) as [[L ->] | [L ->]];
      [| lra].
    destruct (Math_max_cases rx cx) as [[L' ->] | [L' ->]]; lra. }
  rewrite Ex.
  destruct (Math_min_cases cy (ry + rh)) as [[L ->] | [L ->]].
  - destruct (Math_max_cases ry cy) as [[L' ->] | [L' ->]]; [| lra].
    pose proof (Qmult_le_0_compat r r R R). nra.
  - destruct (Math_max_cases ry (ry + rh)) as [[L' ->] | [L' ->]]; [| lra].
    assert (A : 0 <= cy - (ry + rh)) by lra.
    assert (B : 0 <= r - (cy - (ry + rh))) by lra.
    pose proof (Qmult_le_0_compat _ _ A B).
    pose proof (Qmult_le_0_compat _ _ A A).
    nra.
Qed.

(** X3. While the centre of the drop is over the width of a pipe pair
    ([x <= drop.x <= x + w]), the collision test of [update] answers true
    as soon as the drop reaches out of the gap: when it is on the canvas
    ([0 <= drop.y]) and not more than its radius below the upper pipe's
    end ([drop.y - gapY <= r]), or when it is above the lower pipe's foot
    [ry + rh] and not more than its radius above the lower pipe's top
    ([(gapY + gapH) - drop.y <= r]).  A physics step that leaves such an
    obstacle in the array ends the run. *)
Theorem reaching_out_of_the_gap_hits :
  forall W H : Z,
    (forall d ob,
        0 <= Drop.r d ->
        Obstacle.x ob <= Drop.x d ->
        Drop.x d <= Obstacle.x ob + Obstacle.w ob ->
        (0 <= Obstacle.gapY ob /\ 0 <= Drop.y d
         /\ Drop.y d - Obstacle.gapY ob <= Drop.r d)
        \/ (Drop.y d
            <= (Obstacle.gapY ob + Obstacle.gapH ob)
               + (inject_Z H - (Obstacle.gapY ob + Obstacle.gapH ob))
            /\ (Obstacle.gapY ob + Obstacle.gapH ob) - Drop.y d <= Drop.r d) ->
        hitsPipe H d ob = true)
    /\ (forall dt now u st d0 st' ob,
           running st = true -> drop st = Some d0 ->
           update W H dt now u st = Some st' ->
           ob ∈ obstacles st' ->
           let d := integrate d0 in
           0 <= Drop.r d ->
           Obstacle.x ob <= Drop.x d ->
           Drop.x d <= Obstacle.x ob + Obstacle.w ob ->
           (0 <= Obstacle.gapY ob /\ 0 <= Drop.y d
            /\ Drop.y d - Obstacle.gapY ob <= Drop.r d)
           \/ (Drop.y d
               <= (Obstacle.gapY ob + Obstacle.gapH ob)
                  + (inject_Z H - (Obstacle.gapY ob + Obstacle.gapH ob))
               /\ (Obstacle.gapY ob + Obstacle.gapH ob) - Drop.y d
                  <= Drop.r d) ->
           running st' = false).
Proof.
  intros W H.
  assert (A : forall d ob,
             0 <= Drop.r d ->
             Obstacle.x ob <= Drop.x d ->
             Drop.x d <= Obstacle.x ob + Obstacle.w ob ->
             (0 <= Obstacle.gapY ob /\ 0 <= Drop.y d
              /\ Drop.y d - Obstacle.gapY ob <= Drop.r d)
             \/ (Drop.y d
                 <= (Obstacle.gapY ob + Obstacle.gapH ob)
                    + (inject_Z H - (Obstacle.gapY ob + Obstacle.gapH ob))
                 /\ (Obstacle.gapY ob + Obstacle.gapH ob) - Drop.y d
                    <= Drop.r d) ->
             hitsPipe H d ob = true).
  { intros d ob R X1 X2 [(G & Y1 & Y2) | (Y1 & Y2)];
      unfold hitsPipe; apply orb_true_iff.
    - left. apply hit_when_under; try assumption. lra.
    - right. apply hit_when_over; assumption. }
  split; [exact A |].
  intros dt now u st d0 st' ob Rn D U I d R X1 X2 Y.
  apply (update_running_flag W H dt now u st d0 st' Rn D U).
  left. exists ob. split; [exact I |]. apply A; assumption.
Qed.

Lemma reaching_out_of_the_gap_hits_witness :
  let pipe x :=
    {| Obstacle.oid := 0; Obstacle.x := x; Obstacle.w := 84;
       Obstacle.gapY := 90; Obstacle.gapH := 140; Obstacle.scored := false;
       Obstacle.type := "pipe" |} in
  let st := midRun [pipe 100] 1 in
  let d := integrate (initialDrop 640) in
  let ob := pipe 97.8 in
  exists st',
    update 480 640 0.016 16 midDraws st = Some st'
    /\ ob ∈ obstacles st'
    /\ Obstacle.x ob <= Drop.x d
    /\ Drop.x d <= Obstacle.x ob + Obstacle.w ob
    /\ (Obstacle.gapY ob + Obstacle.gapH ob) - Drop.y d <= Drop.r d
    /\ hitsPipe 640 d ob = true
    /\ running st' = false.
Proof.
  intros pipe st d ob. eexists.
  match goal with |- update _ _ _ _ _ _ = Some ?s /\ _ =>
    assert (U : update 480 640 0.016 16 midDraws st = Some s)
  end.
  { vm_compute. reflexivity. }
  assert (I : ob ∈ [ob]) by (apply list_elem_of_here).
  assert (R : 0 <= Drop.r d) by discriminate.
  assert (X1 : Obstacle.x ob <= Drop.x d) by discriminate.
  assert (X2 : Drop.x d <= Obstacle.x ob + Obstacle.w ob) by discriminate.
  assert (Y1 : Drop.y d
               <= (Obstacle.gapY ob + Obstacle.gapH ob)
                  + (inject_Z 640 - (Obstacle.gapY ob + Obstacle.gapH ob)))
    by discriminate.
  assert (Y2 : (Obstacle.gapY ob + Obstacle.gapH ob) - Drop.y d <= Drop.r d)
    by discriminate.
  destruct (reaching_out_of_the_gap_hits 480 640) as (A & B).
  split; [exact U |]. split; [exact I |]. split; [exact X1 |].
  split; [exact X2 |]. split; [exact Y2 |].
  split; [exact (A d ob R X1 X2 (or_intror (conj Y1 Y2))) |].
  exact (B 0.016 16 midDraws st (initialDrop 640) _ ob eq_refl eq_refl U I
           R X1 X2 (or_intror (conj Y1 Y2))).
Defined.

(** ** What the page shows *)

Lemma afterMove_dom W H now u d st :
  let n := scoredNow (speed (afterMove W H now u d st)) (Drop.x d - Drop.r d)
             (spawned W H now u st) in
  dom (afterMove W H now u d st)
  = {| scoreUI := if (n =? 0)%Z then scoreUI (dom st)
                  else scoreLine (score st + n);
       overlay := overlay (dom st);
       gameoverText := gameoverText (dom st) |}.
Proof.
  cbv zeta. unfold afterMove at 1. unfold moveStep. simpl dom.
  rewrite moveObstacles_all. simpl p_scoreUI.
  unfold afterMove, moveStep, spawnStep, spawned. simpl speed.
  change (gateOpen now (set_drop (integrate d) st)) with (gateOpen now st).
  destruct (gateOpen now st); reflexivity.
Qed.

Lemma afterMove_displayOK W H now u d st :
  running st = true -> displayOK st ->
  displayOK (afterMove W H now u d st)
  /\ displayOK (endGame (afterMove W H now u d st)).
Proof.
  intros R (S & O). rewrite R in O.
  pose proof (afterMove_dom W H now u d st) as D. cbv zeta in D.
  pose proof (afterMove_score W H now u d st) as Sc.
  destruct (afterMove_frame W H now u d st) as (_ & R3 & _).
  set (n := scoredNow _ _ _) in *.
  assert (S3 : scoreUI (dom (afterMove W H now u d st))
               = scoreLine (score (afterMove W H now u d st))).
  { rewrite D, Sc. simpl. destruct (n =? 0)%Z eqn:N; [| reflexivity].
    apply Z.eqb_eq in N. rewrite N, Z.add_0_r. exact S. }
  split.
  - split; [exact S3 |]. rewrite R3, R, D. exact O.
  - split; [exact S3 |]. simpl. split; reflexivity.
Qed.

Lemma exec_displayOK W H e st st' :
  (drop st <> None -> displayOK st) -> exec W H e st = Some st' ->
  drop st' <> None -> displayOK st'.
Proof.
  intros IH E N. apply exec_cases in E.
  destruct E as [(t1 & t2 & _ & ->) | [(t1 & t2 & d & _ & R & D & ->)
                | [(now & u & _ & R & ->) | (now & u & d & -> & R & D & L)]]].
  - split; reflexivity.
  - assert (OK : displayOK st) by (apply IH; congruence). exact OK.
  - (* an idle frame keeps the drop it had *)
    destruct (drop st) as [d |] eqn:D.
    + assert (OK : displayOK st) by (apply IH; congruence). exact OK.
    + exfalso. apply N. exact D.
  - assert (OK : displayOK st) by (apply IH; congruence).
    apply loop_update in L. destruct L as (s & U & ->).
    rewrite (update_running W H _ now u st d R D) in U.
    apply (inj Some) in U. subst s.
    destruct (afterMove_displayOK W H now u d st R OK) as (A & B).
    destruct (_ || _); [exact B | exact A].
Qed.

Lemma reachable_displayOK W H st :
  reachable W H st -> drop st <> None -> displayOK st.
Proof.
  induction 1 as [page | st e st' _ IH _ E].
  - intros N. exfalso. apply N. reflexivity.
  - eapply exec_displayOK; eassumption.
Qed.

(** X4. Once the first run has been started (the drop exists), what the
    page shows agrees with the state in every reachable state: the score
    line reads "Water delivered: " followed by the score; during a run the
    overlay is hidden; after a run it is shown and the game-over text
    names the final score. *)
Theorem page_agrees_with_state :
  forall (W H : Z) (st : State),
    reachable W H st -> drop st <> None ->
    scoreUI (dom st) = scoreLine (score st)
    /\ (running st = true -> overlay (dom st) = "none"%string)
    /\ (running st = false ->
        overlay (dom st) = "flex"%string
        /\ gameoverText (dom st) = gameoverLine (score st)).
Proof.
  intros W H st R N. destruct (reachable_displayOK W H st R N) as (S & O).
  split; [exact S |]. split; intros Rn; rewrite Rn in O; exact O.
Qed.

Lemma page_agrees_with_state_witness :
  exists st,
    run 100 640 [Restart 0 0; Frame 1401 lowGapDraws] (initial blankPage)
    = Some st
    /\ reachable 100 640 st
    /\ drop st <> None
    /\ running st = false
    /\ scoreUI (dom st) = "Water delivered: 0"%string
    /\ overlay (dom st) = "flex"%string
    /\ gameoverText (dom st)
       = "You delivered water to 0 people. Real clean water lasts a lifetime."%string.
Proof.
  eexists. split; [vm_compute; reflexivity |].
  match goal with |- reachable _ _ ?s /\ _ => set (st := s) end.
  assert (R : reachable 100 640 st).
  { apply (run_reachable 100 640 [Restart 0 0; Frame 1401 lowGapDraws]
             (initial blankPage)).
    - apply reach_initial.
    - repeat constructor; discriminate.
    - vm_compute. reflexivity. }
  assert (N : drop st <> None) by discriminate.
  split; [exact R |]. split; [exact N |]. split; [reflexivity |].
  destruct (page_agrees_with_state 100 640 st R N) as (S & _ & O).
  destruct (O eq_refl) as (O1 & O2).
  split; [exact S |]. split; [exact O1 | exact O2].
Defined.

(** ** The speed *)

Lemma exec_speed W H e st st' :
  exec W H e st = Some st' ->
  speed st' = speed st
  \/ (exists now u,
         e = Frame now u /\ running st = true /\ gateOpen now st = true
         /\ uSpeed u < 0.12 /\ speed st' = speed st + 0.05)
  \/ (exists t1 t2, st' = reset H t1 t2 st /\ speed st' = 2.2).
Proof.
  intros E. apply exec_cases in E.
  destruct E as [(t1 & t2 & _ & ->) | [(t1 & t2 & d & _ & R & D & ->)
                | [(now & u & _ & R & ->) | (now & u & d & -> & R & D & L)]]];
    try (left; reflexivity).
  - right. right. exists t1, t2. split; reflexivity.
  - destruct (loop_running W H now u st d st' R D L) as (_ & _ & _ & S & _).
    rewrite S. destruct (gateOpen now st) eqn:G; simpl; [| left; reflexivity].
    destruct (Num.lt (uSpeed u) 0.12) eqn:U; [| left; reflexivity].
    right. left. exists now, u. apply lt_true in U. auto.
Qed.

(** X5. An event leaves the speed as it is, or adds 0.05 to it (in a
    frame of a run whose spawn gate fires and whose second random draw is
    below 0.12; such a frame always does), or puts it back to 2.2 (a
    reset).  So the speed never goes down during a run, and is at least 2.2
    in every reachable state. *)
Theorem speed_only_ramps_up :
  forall W H : Z,
    (forall e st st',
        exec W H e st = Some st' ->
        speed st' = speed st
        \/ (exists now u,
               e = Frame now u /\ running st = true /\ gateOpen now st = true
               /\ uSpeed u < 0.12 /\ speed st' = speed st + 0.05)
        \/ (exists t1 t2, st' = reset H t1 t2 st /\ speed st' = 2.2))
    /\ (forall now u st st',
           running st = true -> gateOpen now st = true -> uSpeed u < 0.12 ->
           exec W H (Frame now u) st = Some st' ->
           speed st' = speed st + 0.05)
    /\ (forall e st st',
           running st = true -> (forall t1 t2, e <> Restart t1 t2) ->
           exec W H e st = Some st' -> speed st <= speed st')
    /\ (forall st, reachable W H st -> 2.2 <= speed st).
Proof.
  intros W H. split; [apply exec_speed |]. split; [| split].
  - intros now u st st' R G U E. apply exec_cases in E.
    destruct E as [(t1 & t2 & [X | [X _]] & _) | [(t1 & t2 & d & X & _)
                  | [(now' & u' & _ & R' & _) | (now' & u' & d & X & _ & D & L)]]];
      try discriminate X; try congruence.
    injection X as <- <-.
    destruct (loop_running W H now u st d st' R D L) as (_ & _ & _ & S & _).
    rewrite S, G. apply lt_true in U. rewrite U. reflexivity.
  - intros e st st' R NR E. apply exec_cases in E.
    destruct E as [(t1 & t2 & [X | [_ X]] & _) | [(t1 & t2 & d & _ & _ & D & ->)
                  | [(now & u & _ & R' & _) | (now & u & d & -> & _ & D & L)]]].
    + exfalso. exact (NR t1 t2 X).
    + congruence.
    + simpl. lra.
    + congruence.
    + destruct (loop_running W H now u st d st' R D L) as (_ & _ & _ & S & _).
      rewrite S. destruct (_ && _); lra.
  - intros st R. apply reachable_wellFormed in R. apply R.
Qed.

Lemma speed_only_ramps_up_witness :
  let st := reset 640 0 0 (initial blankPage) in
  let u := {| uGap := 0.5; uSpeed := 0.1; uInterval := 0.5 |} in
  running st = true /\ gateOpen 1401 st = true /\ uSpeed u < 0.12
  /\ exists st',
       exec 480 640 (Frame 1401 u) st = Some st'
       /\ speed st' = speed st + 0.05
       /\ speed st' == 2.25.
Proof.
  intros st u.
  split; [reflexivity |]. split; [reflexivity |]. split; [reflexivity |].
  eexists. split; [vm_compute; reflexivity |].
  match goal with |- speed ?s = _ /\ _ => set (st' := s) end.
  split; [| reflexivity].
  refine (proj1 (proj2 (speed_only_ramps_up 480 640)) 1401 u st st'
            eq_refl eq_refl eq_refl _).
  vm_compute. reflexivity.
Defined.

(** ** No null dereference *)

Lemma update_keeps_drop W H dt now u st st' :
  update W H dt now u st = Some st' ->
  (drop st' = None <-> drop st = None).
Proof.
  intros U. destruct (running st) eqn:R.
  - destruct (drop st) as [d |] eqn:D.
    + destruct (update_fields W H dt now u st d st' R D U) as (D' & _).
      rewrite D'. split; discriminate.
    + rewrite (update_null W H dt now u st R D) in U. discriminate U.
  - rewrite (update_idle W H dt now u st R) in U.
    apply (inj Some) in U. subst st'. reflexivity.
Qed.

(** X6. [drop] is [null] until the first [reset], and [update], [flap] and
    [draw] read its fields.  In every reachable state a run in progress has
    a drop, so [update] and [flap] return, whatever their arguments; and
    [loop] throws if and only if [drop] is still [null], in its call of
    [draw], after [update] has returned and before [lastTime] is assigned
    and the next frame requested. *)
Theorem null_drop_only_throws_in_draw :
  forall (W H : Z) (st : State),
    reachable W H st ->
    (running st = true -> exists d, drop st = Some d)
    /\ (forall dt now u, exists st', update W H dt now u st = Some st')
    /\ (forall t1 t2, exists st', flap H t1 t2 st = Some st')
    /\ (forall now u rnd,
           f_thrown (frame W H now u rnd st) = true <-> drop st = None)
    /\ (forall now u rnd,
           drop st = None ->
           f_state (frame W H now u rnd st) = st
           /\ f_again (frame W H now u rnd st) = false
           /\ f_painted (frame W H now u rnd st)
              = drawBackdrop W H ++ drawObstacles H rnd 0 (obstacles st)
                ++ [BeginPath]).
Proof.
  intros W H st R. apply reachable_wellFormed in R.
  destruct R as (RD & _).
  assert (U : forall dt now u, exists st', update W H dt now u st = Some st').
  { intros dt now u. destruct (running st) eqn:Rn.
    - destruct (RD eq_refl) as (d & D).
      rewrite (update_running W H dt now u st d Rn D). eauto.
    - rewrite (update_idle W H dt now u st Rn). eauto. }
  split; [exact RD |]. split; [exact U |]. split.
  { intros t1 t2. unfold flap. destruct (running st) eqn:Rn; simpl; [| eauto].
    destruct (RD eq_refl) as (d & ->). eauto. }
  split.
  - intros now u rnd. unfold frame. cbv zeta.
    destruct (U ((now - lastTime st) / 1000) now u) as (st1 & E).
    rewrite E. pose proof (update_keeps_drop W H _ now u st st1 E) as K.
    unfold draw. cbv zeta.
    destruct (drop st1) as [d1 |]; simpl.
    + split; [discriminate |]. intros D. apply K in D. discriminate D.
    + split; [intros _; apply K; reflexivity | reflexivity].
  - intros now u rnd D. unfold frame. cbv zeta.
    assert (Rn : running st = false).
    { destruct (running st); [| reflexivity].
      destruct (RD eq_refl) as (d & X). congruence. }
    rewrite (update_idle W H _ now u st Rn).
    unfold draw. cbv zeta. rewrite D. simpl.
    split; [reflexivity |]. split; [reflexivity |].
    symmetry. apply (app_assoc (drawBackdrop W H)).
Qed.

Lemma null_drop_only_throws_in_draw_witness :
  let st0 := initial blankPage in
  let st := reset 640 0 0 st0 in
  reachable 480 640 st0 /\ reachable 480 640 st
  /\ drop st0 = None
  /\ f_thrown (frame 480 640 16 midDraws (fun _ => 0.5) st0) = true
  /\ running st = true
  /\ (exists d, drop st = Some d)
  /\ (exists st', update 480 640 0.016 16 midDraws st = Some st')
  /\ (exists st', flap 640 20 20 st = Some st')
  /\ f_thrown (frame 480 640 16 midDraws (fun _ => 0.5) st) = false.
Proof.
  intros st0 st.
  assert (R0 : reachable 480 640 st0) by apply reach_initial.
  assert (R : reachable 480 640 st).
  { apply (reach_step 480 640 st0 (Restart 0 0)); [exact R0 | exact I |].
    reflexivity. }
  destruct (null_drop_only_throws_in_draw 480 640 st0 R0)
    as (_ & _ & _ & T0 & _).
  destruct (null_drop_only_throws_in_draw 480 640 st R)
    as (D & U & F & T & _).
  split; [exact R0 |]. split; [exact R |]. split; [reflexivity |].
  split; [apply T0; reflexivity |]. split; [reflexivity |].
  split; [exact (D eq_refl) |]. split; [apply U |]. split; [apply F |].
  destruct (f_thrown (frame 480 640 16 midDraws (fun _ => 0.5) st)) eqn:X;
    [| reflexivity].
  apply T in X. discriminate X.
Defined.

(** ** Frames without input *)

Lemma fall_shift n d : fall (S n) d = fall n (integrate d).
Proof.
  unfold fall. induction n as [| n IH]; [reflexivity |].
  simpl in *. rewrite IH. reflexivity.
Qed.

Lemma fall_keeps n d :
  Drop.x (fall n d) = Drop.x d /\ Drop.r (fall n d) = Drop.r d
  /\ Drop.color (fall n d) = Drop.color d
  /\ Drop.vy d <= Drop.vy (fall n d)
  /\ (0 <= Drop.vy d -> Drop.y d <= Drop.y (fall n d)).
Proof.
  induction n as [| n (X & R & C & V & Y)].
  - simpl. repeat split; try reflexivity; try apply Qle_refl.
    intros _. apply Qle_refl.
  - change (fall (S n) d) with (integrate (fall n d)).
    unfold integrate, gravity. simpl.
    split; [exact X |]. split; [exact R |]. split; [exact C |].
    split; [lra |]. intros P. specialize (Y P). lra.
Qed.

Lemma idle_frame_fields W H now u st st' :
  running st = false -> exec W H (Frame now u) st = Some st' ->
  st' = set_lastTime now st.
Proof.
  intros R E. simpl in E. unfold loop in E.
  rewrite (update_idle W H _ now u st R) in E. congruence.
Qed.

Lemma idle_frames W H es :
  forall st st',
    Forall (fun e => isFrame e = true) es ->
    running st = false -> run W H es st = Some st' ->
    drop st' = drop st /\ obstacles st' = obstacles st
    /\ score st' = score st /\ speed st' = speed st
    /\ spawnInterval st' = spawnInterval st /\ lastSpawn st' = lastSpawn st
    /\ running st' = false /\ dom st' = dom st /\ nextId st' = nextId st
    /\ (forall now u, last es = Some (Frame now u) -> lastTime st' = now)
    /\ (es = [] -> lastTime st' = lastTime st).
Proof.
  induction es as [| e es IH]; intros st st' F R E.
  - simpl in E. injection E as <-.
    repeat split; try reflexivity; try exact R.
    intros now u X. simpl in X. discriminate X.
  - apply Forall_cons in F. destruct F as [Fe F].
    destruct e as [t1 t2 | t1 t2 | now u]; try discriminate Fe.
    simpl run in E.
    destruct (loop W H now u st) as [st1 |] eqn:X; [| discriminate E].
    change (exec W H (Frame now u) st = Some st1) in X.
    apply (idle_frame_fields W H now u st st1 R) in X. subst st1.
    destruct (IH (set_lastTime now st) st' F R E)
      as (A1 & A2 & A3 & A4 & A5 & A6 & A7 & A8 & A9 & A10 & A11).
    repeat split; try assumption; try discriminate.
    intros now' u' L. destruct es as [| e' es'].
    + simpl in L. injection L as <- <-. rewrite (A11 eq_refl). reflexivity.
    + apply (A10 now' u'). exact L.
Qed.

Lemma frames_fall W H es :
  forall st st' d,
    Forall (fun e => isFrame e = true) es ->
    drop st = Some d -> run W H es st = Some st' -> running st' = true ->
    drop st' = Some (fall (length es) d).
Proof.
  induction es as [| e es IH]; intros st st' d F D E R'.
  - simpl in E. injection E as <-. exact D.
  - pose proof F as F0. apply Forall_cons in F. destruct F as [Fe F].
    destruct e as [t1 t2 | t1 t2 | now u]; try discriminate Fe.
    destruct (running st) eqn:R.
    + simpl run in E.
      destruct (loop W H now u st) as [st1 |] eqn:X; [| discriminate E].
      destruct (loop_running W H now u st d st1 R D X) as (D1 & _).
      simpl length. rewrite fall_shift. exact (IH st1 st' _ F D1 E R').
    + destruct (idle_frames W H _ st st' F0 R E)
        as (_ & _ & _ & _ & _ & _ & A7 & _).
      congruence.
Qed.

(** X7. The fall of the drop depends on the number of frames only.
    [update] does not use its [dt]: if the run is still on after [n] frames
    without input, the drop is what [n] integration steps ([vy += 0.45;
    y += vy]) make of it, whatever the times of the frames, the random
    draws, the obstacles and the size of the canvas; so two such runs of
    equally many frames from the same drop leave the same drop.  Its x,
    radius and colour are as before, its velocity has not decreased, and
    if it was not rising it has not risen. *)
Theorem fall_depends_on_frame_count :
  forall (W H : Z) (es : list Event) (st st' : State) (d : Drop.t),
    Forall (fun e => isFrame e = true) es ->
    drop st = Some d -> run W H es st = Some st' -> running st' = true ->
    drop st' = Some (fall (length es) d)
    /\ (forall (W2 H2 : Z) (es2 : list Event) (st2 st2' : State),
           Forall (fun e => isFrame e = true) es2 ->
           length es2 = length es ->
           drop st2 = Some d -> run W2 H2 es2 st2 = Some st2' ->
           running st2' = true ->
           drop st2' = drop st')
    /\ (forall d',
           drop st' = Some d' ->
           Drop.x d' = Drop.x d /\ Drop.r d' = Drop.r d
           /\ Drop.color d' = Drop.color d
           /\ Drop.vy d <= Drop.vy d'
           /\ (0 <= Drop.vy d -> Drop.y d <= Drop.y d')).
Proof.
  intros W H es st st' d F D E R'.
  pose proof (frames_fall W H es st st' d F D E R') as X.
  split; [exact X |]. split.
  - intros W2 H2 es2 st2 st2' F2 L D2 E2 R2.
    rewrite X, <- L. eapply frames_fall; eassumption.
  - intros d' D'. rewrite X in D'. apply (inj Some) in D'. subst d'.
    apply fall_keeps.
Qed.

Lemma fall_depends_on_frame_count_witness :
  let st := reset 640 0 0 (initial blankPage) in
  let d := initialDrop 640 in
  let slow := [Frame 500 lowDraws; Frame 1500 lowGapDraws] in
  exists st' st2',
    run 480 640 (frames16 0 2) st = Some st'
    /\ running st' = true
    /\ run 900 640 slow (midRun [pipeAt 0 600 false] 1) = Some st2'
    /\ running st2' = true
    /\ drop st' = Some (integrate (integrate d))
    /\ drop st2' = drop st'.
Proof.
  intros st d slow. eexists. eexists.
  assert (F : Forall (fun e => isFrame e = true) (frames16 0 2))
    by (repeat constructor).
  assert (F2 : Forall (fun e => isFrame e = true) slow)
    by (repeat constructor).
  match goal with |- run _ _ _ _ = Some ?s /\ _ =>
    assert (E : run 480 640 (frames16 0 2) st = Some s)
  end.
  { vm_compute. reflexivity. }
  match goal with |- _ /\ _ /\ run _ _ _ ?s2 = Some ?s /\ _ =>
    assert (E2 : run 900 640 slow s2 = Some s)
  end.
  { vm_compute. reflexivity. }
  destruct (fall_depends_on_frame_count 480 640 (frames16 0 2) st _ d
              F eq_refl E eq_refl) as (X & Y & _).
  split; [exact E |]. split; [reflexivity |].
  split; [exact E2 |]. split; [reflexivity |].
  split; [exact X |].
  exact (Y 900%Z 640%Z slow (midRun [pipeAt 0 600 false] 1) _ F2 eq_refl
           eq_refl E2 eq_refl).
Defined.

(** X8. After the run has ended, frames change nothing but [lastTime]:
    whatever frames come, the drop, the obstacles, the score, the speed,
    the spawn interval and timer and the page stay as the last step of the
    run left them, and the run stays ended, until a reset. *)
Theorem idle_frames_change_only_lastTime :
  forall (W H : Z) (es : list Event) (st st' : State),
    Forall (fun e => isFrame e = true) es ->
    running st = false -> run W H es st = Some st' ->
    drop st' = drop st /\ obstacles st' = obstacles st
    /\ score st' = score st /\ speed st' = speed st
    /\ spawnInterval st' = spawnInterval st /\ lastSpawn st' = lastSpawn st
    /\ running st' = false /\ dom st' = dom st /\ nextId st' = nextId st
    /\ (forall now u, last es = Some (Frame now u) -> lastTime st' = now)
    /\ (es = [] -> lastTime st' = lastTime st).
Proof. intros W H es. apply idle_frames. Qed.

Lemma idle_frames_change_only_lastTime_witness :
  let st := endGame (midRun [pipeAt 0 100 false] 1) in
  exists st',
    run 480 640 (frames16 0 3) st = Some st'
    /\ running st = false
    /\ obstacles st' = obstacles st /\ dom st' = dom st
    /\ lastTime st' = inject_Z (0 + 16 * 3).
Proof.
  intros st. eexists.
  assert (F : Forall (fun e => isFrame e = true) (frames16 0 3))
    by (repeat constructor).
  match goal with |- run _ _ _ _ = Some ?s /\ _ =>
    assert (E : run 480 640 (frames16 0 3) st = Some s)
  end.
  { vm_compute. reflexivity. }
  destruct (idle_frames_change_only_lastTime 480 640 _ st _ F eq_refl E)
    as (_ & O & _ & _ & _ & _ & _ & Dm & _ & L & _).
  split; [exact E |]. split; [reflexivity |].
  split; [exact O |]. split; [exact Dm |].
  apply (L _ midDraws). reflexivity.
Defined.

(** ** Spawning *)

Lemma update_lastSpawn W H dt now u st d st' :
  running st = true -> drop st = Some d ->
  update W H dt now u st = Some st' ->
  lastSpawn st' = (if gateOpen now st then now else lastSpawn st).
Proof.
  intros R D U. rewrite (update_running W H dt now u st d R D) in U.
  apply (inj Some) in U. subst st'.
  destruct (afterMove_frame W H now u d st) as (_ & _ & _ & L & _).
  destruct (_ || _); exact L.
Qed.

Lemma survivors_length sp e l : (length (survivors sp e l) <= length l)%nat.
Proof.
  unfold survivors.
  etransitivity; [apply List.filter_length_le |]. rewrite length_map. lia.
Qed.

Lemma exec_spacing W H e st st' :
  900 <= spawnInterval st -> resets e st = false ->
  exec W H e st = Some st' ->
  (nextId st' = nextId st /\ lastSpawn st' = lastSpawn st)
  \/ (nextId st' = S (nextId st) /\ 900 < lastSpawn st' - lastSpawn st).
Proof.
  intros I N E. apply exec_cases in E.
  destruct E as [(t1 & t2 & [-> | [-> R]] & _)
                | [(t1 & t2 & d & _ & R & D & ->)
                | [(now & u & _ & R & ->) | (now & u & d & -> & R & D & L)]]].
  - discriminate N.
  - simpl in N. rewrite R in N. discriminate N.
  - left. split; reflexivity.
  - left. split; reflexivity.
  - apply loop_update in L. destruct L as (s & U & ->).
    pose proof (update_lastSpawn W H _ now u st d s R D U) as LS.
    destruct (update_fields W H _ now u st d s R D U)
      as (_ & _ & _ & _ & _ & NI).
    change (nextId (set_lastTime now s)) with (nextId s).
    change (lastSpawn (set_lastTime now s)) with (lastSpawn s).
    rewrite LS, NI. destruct (gateOpen now st) eqn:G.
    + right. split; [reflexivity |].
      unfold gateOpen in G. apply lt_true in G. lra.
    + left. split; reflexivity.
Qed.

Lemma run_spacing W H es :
  forall st st',
    wellFormed st -> resetFree W H es st -> run W H es st = Some st' ->
    (nextId st <= nextId st')%nat
    /\ 900 * inject_Z (Z.of_nat (nextId st' - nextId st))
       <= lastSpawn st' - lastSpawn st
    /\ (nextId st' = nextId st -> lastSpawn st' = lastSpawn st)
    /\ ((nextId st < nextId st')%nat ->
        900 * inject_Z (Z.of_nat (nextId st' - nextId st))
        < lastSpawn st' - lastSpawn st).
Proof.
  induction es as [| e es IH]; intros st st' WF RF E.
  - simpl in E. apply (inj Some) in E. subst st'.
    rewrite Nat.sub_diag. change (inject_Z (Z.of_nat 0)) with 0.
    split; [lia |]. split; [lra |]. split; [reflexivity | lia].
  - simpl in E, RF. destruct RF as (N & RF).
    destruct (exec W H e st) as [st1 |] eqn:X; [| discriminate E].
    pose proof (exec_wellFormed W H e st st1 WF X) as WF1.
    destruct (IH st1 st' WF1 RF E) as (A1 & A2 & A3 & A4).
    assert (I : 900 <= spawnInterval st) by apply WF.
    destruct (exec_spacing W H e st st1 I N X) as [(N1 & L1) | (N1 & L1)].
    + rewrite <- N1, <- L1. repeat split; assumption.
    + assert (K : inject_Z (Z.of_nat (nextId st' - nextId st))
                  == inject_Z (Z.of_nat (nextId st' - nextId st1)) + 1).
      { replace (nextId st' - nextId st)%nat
          with (S (nextId st' - nextId st1)) by lia.
        rewrite Nat2Z.inj_succ. unfold Z.succ. rewrite inject_Z_plus.
        reflexivity. }
      split; [lia |].
      assert (S : 900 * inject_Z (Z.of_nat (nextId st' - nextId st))
                  < lastSpawn st' - lastSpawn st).
      { rewrite K. lra. }
      split; [lra |]. split; [lia |]. intros _. exact S.
Qed.

(** X9. [reset] restarts the spawn timer at its first clock reading, so
    the first obstacle of a run comes in the first frame later than that
    by more than the spawn interval.  A physics step of a run spawns at
    most one obstacle, and only when more than the spawn interval has
    passed since the last spawn (or the reset): it then restarts the timer
    at the frame's time.  So, from a reachable state on and until the next
    reset, whatever the events, [k] spawns move the timer on by more than
    [900 k]: two obstacles of a run are spawned more than 900 ms apart,
    and while none is spawned the timer stands. *)
Theorem spawns_are_spaced :
  forall W H : Z,
    (forall t1 t2 st now,
        lastSpawn (reset H t1 t2 st) = t1
        /\ (gateOpen now (reset H t1 t2 st) = true
            <-> spawnInterval st < now - t1))
    /\ (forall dt now u st d st',
           running st = true -> drop st = Some d ->
           update W H dt now u st = Some st' ->
           (gateOpen now st = true <-> spawnInterval st < now - lastSpawn st)
           /\ lastSpawn st' = (if gateOpen now st then now else lastSpawn st)
           /\ nextId st' = (if gateOpen now st then S (nextId st) else nextId st)
           /\ (length (obstacles st')
               <= length (obstacles st) + (if gateOpen now st then 1 else 0))%nat)
    /\ (forall es st st',
           reachable W H st -> resetFree W H es st ->
           run W H es st = Some st' ->
           (nextId st <= nextId st')%nat
           /\ 900 * inject_Z (Z.of_nat (nextId st' - nextId st))
              <= lastSpawn st' - lastSpawn st
           /\ (nextId st' = nextId st -> lastSpawn st' = lastSpawn st)
           /\ ((nextId st < nextId st')%nat ->
               900 * inject_Z (Z.of_nat (nextId st' - nextId st))
               < lastSpawn st' - lastSpawn st)).
Proof.
  intros W H. split; [| split].
  - intros t1 t2 st now. split; [reflexivity |].
    unfold gateOpen. simpl. apply lt_true.
  - intros dt now u st d st' R D U.
    split; [unfold gateOpen; apply lt_true |].
    split; [eapply update_lastSpawn; eassumption |].
    destruct (update_fields W H dt now u st d st' R D U)
      as (_ & O & _ & _ & _ & N).
    split; [exact N |]. rewrite O.
    etransitivity; [apply survivors_length |].
    unfold spawned. destruct (gateOpen now st); [| lia].
    rewrite length_app. simpl. lia.
  - intros es st st' Re RF E.
    apply (run_spacing W H es st st'); [| exact RF | exact E].
    apply (reachable_wellFormed W H). exact Re.
Qed.

Lemma spawns_are_spaced_witness :
  let st := reset 640 0 0 (initial blankPage) in
  let es := [Frame 1401 lowDraws; Activate 1500 1500; Frame 2300 midDraws;
             Frame 2802 midDraws] in
  reachable 480 640 st /\ resetFree 480 640 es st
  /\ exists st',
       run 480 640 es st = Some st'
       /\ nextId st = 0%nat /\ nextId st' = 2%nat
       /\ lastSpawn st = 0 /\ lastSpawn st' = 2802
       /\ 900 * inject_Z (Z.of_nat (nextId st' - nextId st))
          < lastSpawn st' - lastSpawn st.
Proof.
  intros st es.
  assert (Re : reachable 480 640 st).
  { apply (reach_step 480 640 (initial blankPage) (Restart 0 0)).
    - apply reach_initial.
    - exact I.
    - reflexivity. }
  assert (RF : resetFree 480 640 es st).
  { vm_compute. repeat split. }
  split; [exact Re |]. split; [exact RF |].
  eexists.
  match goal with |- run _ _ _ _ = Some ?s /\ _ =>
    assert (E : run 480 640 es st = Some s)
  end.
  { vm_compute. reflexivity. }
  split; [exact E |]. split; [reflexivity |]. split; [reflexivity |].
  split; [reflexivity |]. split; [reflexivity |].
  refine (proj2 (proj2 (proj2
            (proj2 (proj2 (spawns_are_spaced 480 640)) es st _ Re RF E))) _).
  simpl. lia.
Defined.

(** ** The order of the obstacles *)









(** ** Score accounting *)

Lemma pruned_is_scored sp e o :
  -50 <= e -> offscreen (moved sp e o) = true ->
  Obstacle.scored (moved sp e o) = true.
Proof.
  intros E Off. apply offscreen_true in Off.
  rewrite moved_x, moved_w in Off.
  rewrite moved_scored. apply orb_true_iff. right. apply lt_true. lra.
Qed.

Lemma scoredCount_cons o l :
  scoredCount (o :: l)
  = ((if Obstacle.scored o then 1 else 0) + scoredCount l)%Z.
Proof.
  unfold scoredCount. simpl. destruct (Obstacle.scored o); simpl length; lia.
Qed.

Lemma scoredCount_moved sp e l :
  scoredCount (map (moved sp e) l) = (scoredCount l + scoredNow sp e l)%Z.
Proof.
  induction l as [| o l IH]; [reflexivity |].
  simpl map. rewrite !scoredCount_cons, IH.
  unfold scoredNow. simpl List.filter.
  rewrite newlyScored_transition.
  destruct (Obstacle.scored o) eqn:S;
    destruct (Obstacle.scored (moved sp e o)) eqn:S'; simpl; try lia.
  rewrite moved_scored, S in S'. discriminate S'.
Qed.

Lemma scoredCount_survivors sp e l :
  -50 <= e ->
  scoredCount (map (moved sp e) l)
  = (scoredCount (survivors sp e l)
     + (Z.of_nat (length l) - Z.of_nat (length (survivors sp e l))))%Z.
Proof.
  intros E. induction l as [| o l IH]; [reflexivity |].
  simpl map. rewrite scoredCount_cons, IH, survivors_cons.
  destruct (offscreen (moved sp e o)) eqn:Off.
  - rewrite (pruned_is_scored sp e o E Off). simpl length. lia.
  - rewrite scoredCount_cons. simpl length. lia.
Qed.

Lemma scoredCount_spawned W H now u st :
  scoredCount (spawned W H now u st) = scoredCount (obstacles st).
Proof.
  unfold spawned. destruct (gateOpen now st); [| reflexivity].
  unfold scoredCount. rewrite List.filter_app. simpl.
  rewrite app_nil_r. reflexivity.
Qed.

Lemma update_accounting W H dt now u st d st' :
  -50 <= Drop.x d - Drop.r d ->
  running st = true -> drop st = Some d ->
  update W H dt now u st = Some st' ->
  (score st' - scoredCount (obstacles st')
   = score st - scoredCount (obstacles st)
     + (Z.of_nat (length (spawned W H now u st))
        - Z.of_nat (length (obstacles st'))))%Z.
Proof.
  intros E R D U.
  destruct (update_fields W H dt now u st d st' R D U) as (_ & O & S & _).
  pose proof (scoredCount_moved (speed st') (Drop.x d - Drop.r d)
                (spawned W H now u st)) as M.
  pose proof (scoredCount_survivors (speed st') (Drop.x d - Drop.r d)
                (spawned W H now u st) E) as V.
  rewrite scoredCount_spawned in M. rewrite <- O in V. lia.
Qed.

Lemma exec_scoredCount W H e st st' :
  wellFormed st -> (scoredCount (obstacles st) <= score st)%Z ->
  exec W H e st = Some st' ->
  (scoredCount (obstacles st') <= score st')%Z.
Proof.
  intros WF I E. apply exec_cases in E.
  destruct E as [(t1 & t2 & _ & ->) | [(t1 & t2 & d & _ & R & D & ->)
                | [(now & u & _ & R & ->) | (now & u & d & -> & R & D & L)]]];
    try exact I.
  - simpl. reflexivity.
  - apply loop_update in L. destruct L as (s & U & ->). simpl.
    destruct WF as (_ & DX & _). destruct (DX d D) as (X110 & R14).
    assert (E : -50 <= Drop.x d - Drop.r d) by (rewrite X110, R14; discriminate).
    pose proof (update_accounting W H _ now u st d s E R D U) as A.
    destruct (update_fields W H _ now u st d s R D U) as (_ & O & _).
    pose proof (survivors_length (speed s) (Drop.x d - Drop.r d)
                  (spawned W H now u st)) as Ln.
    rewrite <- O in Ln. lia.
Qed.

(** X11. The move pass never removes an obstacle that is not scored (the
    pruning line at -50 lies left of the drop).  So a physics step of a
    run raises [score - number of scored obstacles in the array] by exactly
    the number of obstacles it removes, and in every reachable state the
    score is at least the number of scored obstacles in the array. *)
Theorem score_counts_scored_obstacles :
  forall W H : Z,
    (forall sp e o,
        -50 <= e -> offscreen (moved sp e o) = true ->
        Obstacle.scored (moved sp e o) = true)
    /\ (forall dt now u st d st',
           -50 <= Drop.x d - Drop.r d ->
           running st = true -> drop st = Some d ->
           update W H dt now u st = Some st' ->
           (score st' - scoredCount (obstacles st')
            = score st - scoredCount (obstacles st)
              + (Z.of_nat (length (spawned W H now u st))
                 - Z.of_nat (length (obstacles st'))))%Z)
    /\ (forall st,
           reachable W H st ->
           (scoredCount (obstacles st) <= score st)%Z).
Proof.
  intros W H. split; [exact pruned_is_scored |].
  split; [apply update_accounting |].
  induction 1 as [page | st e st' R IH _ E].
  - simpl. reflexivity.
  - eapply exec_scoredCount; [eapply reachable_wellFormed, R | exact IH | exact E].
Qed.

Lemma score_counts_scored_obstacles_witness :
  let st := midRun [pipeAt 0 (-133) true; pipeAt 1 13 false] 2 in
  let d := initialDrop 640 in
  -50 <= Drop.x d - Drop.r d /\ running st = true
  /\ exists st',
       update 480 640 0.016 16 midDraws st = Some st'
       /\ score st = 0%Z /\ scoredCount (obstacles st) = 1%Z
       /\ score st' = 1%Z /\ scoredCount (obstacles st') = 1%Z
       /\ length (obstacles st') = 1%nat
       /\ (score st' - scoredCount (obstacles st')
           = score st - scoredCount (obstacles st) + (2 - 1))%Z.
Proof.
  intros st d.
  assert (E : -50 <= Drop.x d - Drop.r d) by discriminate.
  split; [exact E |]. split; [reflexivity |].
  eexists.
  match goal with |- update _ _ _ _ _ _ = Some ?s /\ _ =>
    assert (U : update 480 640 0.016 16 midDraws st = Some s)
  end.
  { vm_compute. reflexivity. }
  split; [exact U |].
  split; [reflexivity |]. split; [reflexivity |].
  split; [reflexivity |]. split; [reflexivity |]. split; [reflexivity |].
  exact (proj1 (proj2 (score_counts_scored_obstacles 480 640))
           0.016 16 midDraws st d _ E eq_refl eq_refl U).
Defined.

(** ** What a frame paints *)








(** ** The page as a whole *)

Section Page.

Variables W H : Z.

Lemma frame_with_drop now u rnd st d :
  wellFormed st -> drop st = Some d ->
  exists st',
    loop W H now u st = Some st'
    /\ f_state (frame W H now u rnd st) = st'
    /\ f_thrown (frame W H now u rnd st) = false
    /\ f_again (frame W H now u rnd st) = running st'
    /\ exists d', drop st' = Some d'.
Proof.
  intros WF D. unfold frame, loop. destruct (running st) eqn:R.
  - assert (X : exists s,
               update W H ((now - lastTime st) / 1000) now u st = Some s)
      by (rewrite (update_running W H _ now u st d R D); eauto).
    destruct X as (s & U). rewrite U.
    destruct (update_fields W H _ now u st d s R D U) as (D1 & _).
    unfold draw. rewrite D1. exists (set_lastTime now s).
    repeat split; try reflexivity. exists (integrate d). exact D1.
  - rewrite (update_idle W H _ now u st R). unfold draw. rewrite D.
    exists (set_lastTime now st). repeat split; try reflexivity.
    exists d. exact D.
Qed.

(** What holds of the page at all times after loading. *)
Lemma live_invariant s :
  live W H s ->
  wellFormed (game s)
  /\ (exists d, drop (game s) = Some d)
  /\ faults s = 0%nat
  /\ (running (game s) = true -> (1 <= pending s)%nat).
Proof.
  assert (Rs : forall t1 t2 s0,
             wellFormed (game s0) -> faults s0 = 0%nat ->
             wellFormed (game (restartSys H t1 t2 s0))
             /\ (exists d, drop (game (restartSys H t1 t2 s0)) = Some d)
             /\ faults (restartSys H t1 t2 s0) = 0%nat
             /\ (running (game (restartSys H t1 t2 s0)) = true ->
                 (1 <= pending (restartSys H t1 t2 s0))%nat)).
  { intros t1 t2 s0 WF F. simpl.
    split; [apply reset_wellFormed, WF |]. split; [eauto |].
    split; [exact F | intros _; lia]. }
  assert (Fl : forall t1 t2 s0,
             wellFormed (game s0) -> (exists d, drop (game s0) = Some d) ->
             faults s0 = 0%nat ->
             (running (game s0) = true -> (1 <= pending s0)%nat) ->
             wellFormed (game (flapSys H t1 t2 s0))
             /\ (exists d, drop (game (flapSys H t1 t2 s0)) = Some d)
             /\ faults (flapSys H t1 t2 s0) = 0%nat
             /\ (running (game (flapSys H t1 t2 s0)) = true ->
                 (1 <= pending (flapSys H t1 t2 s0))%nat)).
  { intros t1 t2 s0 WF (d & D) F P. unfold flapSys.
    destruct (running (game s0)) eqn:R; simpl negb; cbv iota.
    - unfold flap. rewrite R, D. simpl.
      split.
      + apply (exec_wellFormed W H (Activate t1 t2) (game s0)); [exact WF |].
        simpl. unfold flap. rewrite R, D. reflexivity.
      + split; [eauto |]. split; [exact F | intros _; apply P; reflexivity].
    - apply Rs; assumption. }
  induction 1 as [page t1 t2 | s e s' _ (WF & D & F & P) E].
  - simpl. split; [apply reset_wellFormed, initial_wellFormed |].
    split; [eauto |]. split; [reflexivity | intros _; lia].
  - destruct e as [t1 t2 | code t1 t2 | t1 t2 | now u rnd]; simpl in E.
    + injection E as <-. apply Fl; assumption.
    + destruct (String.eqb code "Space"); injection E as <-;
        [apply Fl; assumption | auto].
    + injection E as <-. apply Rs; assumption.
    + destruct (pending s) as [| p] eqn:Pn; [discriminate E |].
      injection E as <-. simpl.
      destruct D as (d & D).
      destruct (frame_with_drop now u rnd (game s) d WF D)
        as (st' & L & -> & -> & -> & D').
      split; [apply (exec_wellFormed W H (Frame now u) (game s)); assumption |].
      split; [exact D' |]. split; [exact F |].
      intros R. rewrite R. lia.
Qed.

Lemma tidy_live s : tidy W H s -> live W H s.
Proof.
  induction 1 as [page t1 t2 | s e s' _ IH _ E].
  - apply live_boot.
  - eapply live_step; eassumption.
Qed.

Lemma tidy_invariant s :
  tidy W H s -> pending s = if running (game s) then 1%nat else 0%nat.
Proof.
  induction 1 as [page t1 t2 | s e s' T IH Pol E]; [reflexivity |].
  apply tidy_live in T. destruct (live_invariant s T) as (WF & (d & D) & _).
  assert (Fl : forall t1 t2,
             pending (flapSys H t1 t2 s)
             = if running (game (flapSys H t1 t2 s)) then 1%nat else 0%nat).
  { intros t1 t2. unfold flapSys.
    destruct (running (game s)) eqn:R; simpl negb; cbv iota.
    - unfold flap. rewrite R, D. simpl. rewrite R. exact IH.
    - simpl. rewrite IH. reflexivity. }
  destruct e as [t1 t2 | code t1 t2 | t1 t2 | now u rnd]; simpl in E.
  - injection E as <-. apply Fl.
  - destruct (String.eqb code "Space"); injection E as <-;
      [apply Fl | exact IH].
  - injection E as <-. simpl. rewrite IH, (Pol eq_refl). reflexivity.
  - destruct (pending s) as [| p] eqn:Pn; [discriminate E |].
    injection E as <-. simpl.
    destruct (frame_with_drop now u rnd (game s) d WF D)
      as (st' & _ & -> & _ & -> & _).
    destruct (running (game s)); [| discriminate IH].
    injection IH as ->. destruct (running st'); reflexivity.
Qed.

End Page.

Lemma fireAll_live W H es :
  forall s s', live W H s -> fireAll W H es s = Some s' -> live W H s'.
Proof.
  induction es as [| e es IH]; simpl; intros s s' L E.
  - congruence.
  - destruct (fire W H e s) as [s1 |] eqn:X; [| discriminate E].
    eapply IH; [| exact E]. eapply live_step; eassumption.
Qed.

(** X13. After the page has loaded ([reset], then the first
    [requestAnimationFrame]), whatever the player presses and whenever
    frames come, no handler throws: the drop always exists, so [update],
    [draw] and [flap] never read a field of [null].  A key other than Space
    changes nothing, and Space does what a pointer press does. *)
Theorem page_never_throws :
  forall W H : Z,
    (forall s,
        live W H s ->
        faults s = 0%nat
        /\ (exists d, drop (game s) = Some d)
        /\ (forall now u rnd,
               f_thrown (frame W H now u rnd (game s)) = false)
        /\ (forall e s', fire W H e s = Some s' -> faults s' = 0%nat))
    /\ (forall code t1 t2 s,
           code <> "Space"%string -> fire W H (KeyDown code t1 t2) s = Some s)
    /\ (forall t1 t2 s,
           fire W H (KeyDown "Space" t1 t2) s = fire W H (PointerDown t1 t2) s).
Proof.
  intros W H. split; [| split].
  - intros s L. destruct (live_invariant W H s L) as (WF & (d & D) & F & _).
    split; [exact F |]. split; [eauto |]. split.
    + intros now u rnd.
      destruct (frame_with_drop W H now u rnd (game s) d WF D)
        as (_ & _ & _ & T & _). exact T.
    + intros e s' E.
      apply (live_invariant W H s' (live_step W H s e s' L E)).
  - intros code t1 t2 s N. simpl.
    destruct (String.eqb code "Space") eqn:E; [| reflexivity].
    apply String.eqb_eq in E. contradiction.
  - reflexivity.
Qed.

Lemma page_never_throws_witness :
  exists s,
    fireAll 480 640
      [AnimationFrame 16 midDraws (fun _ => 0.5); PointerDown 20 20;
       KeyDown "KeyA" 21 21; AnimationFrame 32 midDraws (fun _ => 0.5)]
      (boot 640 blankPage 0 0) = Some s
    /\ live 480 640 s
    /\ faults s = 0%nat
    /\ pending s = 1%nat.
Proof.
  eexists. split; [vm_compute; reflexivity |].
  match goal with |- live _ _ ?x /\ _ => set (s := x) end.
  assert (L : live 480 640 s).
  { apply (fireAll_live 480 640
             [AnimationFrame 16 midDraws (fun _ => 0.5); PointerDown 20 20;
              KeyDown "KeyA" 21 21; AnimationFrame 32 midDraws (fun _ => 0.5)]
             (boot 640 blankPage 0 0)).
    - apply live_boot.
    - vm_compute. reflexivity. }
  split; [exact L |].
  split; [exact (proj1 (proj1 (page_never_throws 480 640) s L)) | reflexivity].
Defined.

(** X14. The animation loop lives exactly as long as the run.  During a
    run at least one call of [loop] is queued.  If the restart button is
    only pressed between runs, exactly one is queued during a run and none
    after it, so no frame comes once the run has ended.  A frame leaves the
    queue as long as it was when the run goes on and one shorter when it
    does not.  A restart pressed during a run queues one more call, so
    from then on at least two loops run side by side. *)
Theorem loop_lives_with_the_run :
  forall W H : Z,
    (forall s,
        live W H s -> running (game s) = true -> (1 <= pending s)%nat)
    /\ (forall s,
           tidy W H s ->
           pending s = if running (game s) then 1%nat else 0%nat)
    /\ (forall s now u rnd,
           tidy W H s -> running (game s) = false ->
           fire W H (AnimationFrame now u rnd) s = None)
    /\ (forall s now u rnd s',
           live W H s ->
           fire W H (AnimationFrame now u rnd) s = Some s' ->
           pending s' = if running (game s') then pending s
                        else (pending s - 1)%nat)
    /\ (forall s t1 t2,
           live W H s -> running (game s) = true ->
           exists s',
             fire W H (RestartClick t1 t2) s = Some s'
             /\ running (game s') = true /\ (2 <= pending s')%nat).
Proof.
  intros W H. split; [| split; [| split; [| split]]].
  - intros s L. apply (live_invariant W H s L).
  - apply tidy_invariant.
  - intros s now u rnd T R. simpl.
    rewrite (tidy_invariant W H s T), R. reflexivity.
  - intros s now u rnd s' L E. simpl in E.
    destruct (live_invariant W H s L) as (WF & (d & D) & _).
    destruct (pending s) as [| p]; [discriminate E |].
    injection E as <-. simpl.
    destruct (frame_with_drop W H now u rnd (game s) d WF D)
      as (st' & _ & -> & _ & -> & _).
    destruct (running st'); lia.
  - intros s t1 t2 L R. eexists. split; [reflexivity |].
    split; [reflexivity |]. simpl.
    pose proof (proj2 (proj2 (proj2 (live_invariant W H s L))) R). lia.
Qed.

Lemma loop_lives_with_the_run_witness :
  exists s,
    fireAll 100 640 [AnimationFrame 1401 lowGapDraws (fun _ => 0.5)]
      (boot 640 blankPage 0 0) = Some s
    /\ tidy 100 640 s
    /\ running (game s) = false
    /\ pending s = 0%nat
    /\ fire 100 640 (AnimationFrame 1417 midDraws (fun _ => 0.5)) s = None.
Proof.
  eexists. split; [vm_compute; reflexivity |].
  match goal with |- tidy _ _ ?x /\ _ => set (s := x) end.
  assert (T : tidy 100 640 s).
  { eapply (tidy_step 100 640 (boot 640 blankPage 0 0)
              (AnimationFrame 1401 lowGapDraws (fun _ => 0.5))).
    - apply tidy_boot.
    - discriminate.
    - vm_compute. reflexivity. }
  split; [exact T |]. split; [reflexivity |]. split; [reflexivity |].
  exact (proj1 (proj2 (proj2 (loop_lives_with_the_run 100 640)))
           s 1417 midDraws (fun _ => 0.5) T eq_refl).
Defined.

(** ** What never changes *)

Lemma moved_type sp e o : Obstacle.type (moved sp e o) = Obstacle.type o.
Proof. unfold moved. destruct (passes e _); reflexivity. Qed.

Lemma exec_constant_fields W H e st st' :
  exec W H e st = Some st' ->
  (forall d, drop st = Some d ->
     Drop.x d = 110 /\ Drop.r d = 14 /\ Drop.color d = "#3fe6ff"%string) ->
  Forall (fun o => Obstacle.w o = 84 /\ Obstacle.gapH o = 140
                   /\ Obstacle.type o = "pipe"%string) (obstacles st) ->
  (forall d, drop st' = Some d ->
     Drop.x d = 110 /\ Drop.r d = 14 /\ Drop.color d = "#3fe6ff"%string)
  /\ Forall (fun o => Obstacle.w o = 84 /\ Obstacle.gapH o = 140
                      /\ Obstacle.type o = "pipe"%string) (obstacles st').
Proof.
  intros E DI OI. apply exec_cases in E.
  destruct E as [(t1 & t2 & _ & ->) | [(t1 & t2 & d & _ & R & D & ->)
                | [(now & u & _ & R & ->) | (now & u & d & -> & R & D & L)]]].
  - split; [| constructor].
    intros d E. injection E as <-. repeat split; reflexivity.
  - split; [| exact OI].
    intros d' E. injection E as <-. simpl. apply DI, D.
  - split; [exact DI | exact OI].
  - destruct (loop_running W H now u st d st' R D L) as (D' & O & _). split.
    + intros d' E. rewrite D' in E. injection E as <-. simpl. apply DI, D.
    + rewrite O. apply Forall_forall. intros o' I.
      apply survivors_elem in I. destruct I as (o & I & -> & _).
      rewrite moved_w, moved_gapH, moved_type.
      apply (spawned_elem W H) in I. destruct I as [I | [_ ->]].
      * rewrite Forall_forall in OI. apply OI, I.
      * repeat split; reflexivity.
Qed.

(** X15. In every reachable state the drop, once it exists, is at x = 110
    with radius 14 and colour #3fe6ff (only its height and velocity ever
    change), and every obstacle is 84 wide with a gap 140 high and is of
    type "pipe". *)
Theorem constant_fields :
  forall (W H : Z) (st : State),
    reachable W H st ->
    (forall d, drop st = Some d ->
       Drop.x d = 110 /\ Drop.r d = 14 /\ Drop.color d = "#3fe6ff"%string)
    /\ (forall o, o ∈ obstacles st ->
          Obstacle.w o = 84 /\ Obstacle.gapH o = 140
          /\ Obstacle.type o = "pipe"%string).
Proof.
  intros W H st R.
  assert (X : (forall d, drop st = Some d ->
                 Drop.x d = 110 /\ Drop.r d = 14
                 /\ Drop.color d = "#3fe6ff"%string)
              /\ Forall (fun o => Obstacle.w o = 84 /\ Obstacle.gapH o = 140
                                  /\ Obstacle.type o = "pipe"%string)
                   (obstacles st)).
  { induction R as [page | st e st' _ (DI & OI) _ E].
    - split; [discriminate | constructor].
    - eapply exec_constant_fields; eassumption. }
  destruct X as (DI & OI). split; [exact DI |].
  intros o I. rewrite Forall_forall in OI. apply OI, I.
Qed.

Lemma constant_fields_witness :
  exists st d o,
    run 480 640 [Restart 0 0; Frame 1401 midDraws; Activate 1402 1402;
                 Frame 1418 midDraws] (initial blankPage) = Some st
    /\ reachable 480 640 st
    /\ drop st = Some d /\ obstacles st = [o]
    /\ Drop.x d = 110 /\ Drop.r d = 14
    /\ Obstacle.w o = 84 /\ Obstacle.type o = "pipe"%string.
Proof.
  eexists. eexists. eexists. split; [vm_compute; reflexivity |].
  match goal with |- reachable _ _ ?s /\ _ => set (st := s) end.
  assert (R : reachable 480 640 st).
  { apply (run_reachable 480 640
             [Restart 0 0; Frame 1401 midDraws; Activate 1402 1402;
              Frame 1418 midDraws] (initial blankPage)).
    - apply reach_initial.
    - repeat constructor; discriminate.
    - vm_compute. reflexivity. }
  split; [exact R |]. split; [reflexivity |]. split; [reflexivity |].
  destruct (constant_fields 480 640 st R) as (DI & OI).
  destruct (DI _ eq_refl) as (X & Rd & _).
  destruct (OI _ (list_elem_of_here _ _)) as (Wd & _ & T).
  repeat split; assumption.
Defined.
